(** * muspy.inputs.music21: the music21 input interface, embedded in Rocq

    A shallow embedding of [muspy/inputs/music21.py].  A music21 stream is
    represented by the values its accessors return (the flattened views the
    source iterates over); the functions of the source are translated one
    by one on top of that view.

    Numbers.  music21 offsets and quarter lengths are floats or fractions;
    they are embedded as exact rationals ([Q]), and so is the arithmetic
    on them.  Python computes in doubles: the two agree where every
    value is a binary fraction with a numerator below 2^53, as integer
    resolutions, power-of-two denominators and binary fractions of a
    quarter note give; they can differ elsewhere (a denominator of 5
    gives a beat of 19.2 ticks, which no double holds), and a theorem
    that states exact ticks or an exact count of beats says within which
    bounds.  Python's [round] on a float is round-half-to-even and
    yields an [int] ([Z]).  A tempo's [qpm] is a stored float that is
    compared for equality, so it is a canonical rational ([Qc]).

    Failure.  Python exceptions are explicit: fallible code lives in the
    [result] monad below. *)

From Stdlib Require Import ZArith QArith Qround Qcanon Lia Lqa.
From stdpp Require Import base numbers option list sorting gmap strings.

Local Open Scope Z_scope.

(** ** Exceptions and the result monad *)

Inductive exn : Set :=
| IndexError          (* [l[i]] with [i] out of range *)
| ZeroDivisionError   (* [/] or [%] by zero, [np.arange] with a zero step *)
| OutOfFuel.          (* artefact of the fuelled [while] loop; see
                         [parse_beats_loop_fuel]: never produced *)

Inductive result (A : Type) : Type :=
| Ok (a : A)
| Raise (e : exn).
Arguments Ok {A} a.
Arguments Raise {A} e.

Global Instance result_ret : MRet result := λ A a, Ok a.
Global Instance result_bind : MBind result := λ A B f m,
  match m with
  | Ok a => f a
  | Raise e => Raise e
  end.
Global Instance result_fmap : FMap result := λ A B f m,
  match m with
  | Ok a => Ok (f a)
  | Raise e => Raise e
  end.

Definition returns {A} (m : result A) : Prop := ∃ a, m = Ok a.

(** [l[i]] for a non-negative index. *)
Definition getitem {A} (l : list A) (i : nat) : result A :=
  match l !! i with
  | Some a => Ok a
  | None => Raise IndexError
  end.

(** Python's float [/]. *)
Definition py_truediv (a b : Q) : result Q :=
  if Qeq_bool b 0 then Raise ZeroDivisionError else Ok (a / b)%Q.

(** Python's int [%]: the sign follows the divisor, as [Z.modulo]. *)
Definition py_mod (a b : Z) : result Z :=
  if b =? 0 then Raise ZeroDivisionError else Ok (a mod b).

(** Python's [round] on a float: nearest integer, halves to the even one. *)
Definition py_round (x : Q) : Z :=
  let f := Qfloor x in
  match (x - inject_Z f ?= 1 # 2)%Q with
  | Lt => f
  | Gt => f + 1
  | Eq => if Z.even f then f else f + 1
  end.

(** [np.arange(start, stop, step)]: [ceil((stop - start) / step)] values
    [start + i * step], none when that count is not positive.  The
    quotient is the exact one; numpy rounds it to a double before the
    ceiling, which is the same count when [stop - start] and [step] are
    binary fractions that doubles hold, and can be one more otherwise. *)
Definition np_arange (start stop step : Q) : result (list Q) :=
  if Qeq_bool step 0 then Raise ZeroDivisionError
  else
    let n := Z.to_nat (Qceiling ((stop - start) / step)) in
    Ok ((λ i : nat, start + inject_Z (Z.of_nat i) * step)%Q <$> seq 0 n).

(** The source writes [round(float(offset * resolution))] at every call
    site; this is that expression, on the exact product (the double of
    the source is that product while it stays below 2^53). *)
Definition quantize (offset : Q) (resolution : Z) : Z :=
  py_round (offset * inject_Z resolution).

(** [sorted(xs, key=...)]: Python's sort is stable, and a stable sort is
    determined by its input; insertion after the equal keys computes it. *)
Fixpoint insert_by {A} (key : A → Z) (x : A) (l : list A) : list A :=
  match l with
  | [] => [x]
  | y :: l' =>
      if bool_decide (key y ≤ key x) then y :: insert_by key x l' else x :: l
  end.

Definition py_sorted {A} (key : A → Z) (l : list A) : list A :=
  foldl (λ acc x, insert_by key x acc) [] l.

(** ** Python sets

    [s = set(); s.add(x) ...; sorted(s, ...)] iterates the set in an order
    fixed by the hashes of its elements and by the history of insertions.
    The language does not specify that order, so it is an interface: from
    the sequence of [add] calls, an enumeration without repetition of the
    values added.  Equality of elements is equality of all fields. *)

Class PySet := {
  set_iter : ∀ {T} `{EqDecision T}, list T → list T;
  set_iter_NoDup : ∀ {T} `{EqDecision T} (adds : list T),
    NoDup (set_iter adds);
  set_iter_elem : ∀ {T} `{EqDecision T} (adds : list T) (x : T),
    x ∈ set_iter adds ↔ x ∈ adds;
}.

(** One such order: every value at the place of its last insertion. *)
Program Definition insertion_order : PySet :=
  {| set_iter := λ T _ adds, remove_dups adds |}.
Next Obligation. intros. apply NoDup_remove_dups. Qed.
Next Obligation. intros. apply elem_of_remove_dups. Qed.

(** Another: the reverse of it. *)
Program Definition reverse_insertion_order : PySet :=
  {| set_iter := λ T _ adds, reverse (remove_dups adds) |}.
Next Obligation.
  intros. cbn. rewrite reverse_Permutation. apply NoDup_remove_dups.
Qed.
Next Obligation.
  intros. cbn. rewrite elem_of_reverse. apply elem_of_remove_dups.
Qed.

(** ** The output classes ([muspy.classes], [muspy.music]) *)

(** Modelled from the spec: the record classes of [muspy.classes] and the
    constant [muspy.music.DEFAULT_RESOLUTION] are imported by the source
    and declared elsewhere; their fields are those of section 3 of the
    specification and of the constructor calls in the source, records in
    a set are the same when all their fields are (section 4.2), and the
    docstrings of the source give the constant as 24. *)
Definition DEFAULT_RESOLUTION : Z := 24.

Module Metadata.
Record t := mk {
  title : option string;
  creators : list string;
  copyright : option string;
}.
End Metadata.
Abbreviation Metadata := Metadata.t.

Module Tempo.
Record t := mk { time : Z; qpm : Qc }.
Global Instance tempo_eq_dec : EqDecision t.
Proof. solve_decision. Defined.
End Tempo.
Abbreviation Tempo := Tempo.t.

Module KeySignature.
Record t := mk {
  time : Z;
  root : option Z;
  mode : option string;
  fifths : Z;
}.
Global Instance key_signature_eq_dec : EqDecision t.
Proof. solve_decision. Defined.
End KeySignature.
Abbreviation KeySignature := KeySignature.t.

Module TimeSignature.
Record t := mk { time : Z; numerator : Z; denominator : Z }.
Global Instance time_signature_eq_dec : EqDecision t.
Proof. solve_decision. Defined.
End TimeSignature.
Abbreviation TimeSignature := TimeSignature.t.

Module Beat.
Record t := mk { time : Z; is_downbeat : bool }.
End Beat.
Abbreviation Beat := Beat.t.

Module Note.
Record t := mk {
  time : Z;
  pitch : Z;
  duration : Z;
  velocity : option Z;
}.
(** [note.duration += d] *)
Definition add_duration (d : Z) (n : t) : t :=
  mk (time n) (pitch n) (duration n + d) (velocity n).
End Note.
Abbreviation Note := Note.t.

Module Chord.
Record t := mk {
  time : Z;
  pitches : list Z;
  duration : Z;
  velocity : option Z;
}.
End Chord.
Abbreviation Chord := Chord.t.

Module Track.
Record t := mk {
  program : Z;
  is_drum : bool;
  name : option string;
  notes : list Note;
  chords : list Chord;
}.
End Track.
Abbreviation Track := Track.t.

Module Music.
Record t := mk {
  metadata : option Metadata;
  resolution : Z;
  tempos : list Tempo;
  key_signatures : list KeySignature;
  time_signatures : list TimeSignature;
  beats : list Beat;
  tracks : list Track;
}.
End Music.
Abbreviation Music := Music.t.

(** ** The music21 side

  What the source reads from music21 objects.  Every field is the value
  of the accessor of the same name. *)

Module M21.

(** [stream.metadata]: [title], the [names] of each contributor, and the
    (key, value) items of [all(skipContributors=True)]. *)
Record Metadata := mkMetadata {
  title : option string;
  contributors : list (list string);
  all : list (string * string);
}.

(** An element of [getElementsByClass(KeySignature)]: a [Key] carries a
    tonic and a mode, a bare signature only its sharps. *)
Record KeySignature := mkKeySignature {
  ks_offset : Q;
  sharps : Z;
  key : option (Z * string);   (* [tonic.pitchClass], [mode] of a [Key] *)
}.

Record TimeSignature := mkTimeSignature {
  ts_offset : Q;
  numerator : Z;
  denominator : Z;
}.

Inductive TieType := start | continue | stop | let_ring | continue_let_ring.

(** What an element of [notesAndRests] is: a note ([isNote]) with its
    [pitch.midi], a chord ([isChord]) with the [pitch.midi] of each of
    its [notes], or neither (a rest, an unpitched element). *)
Inductive Body :=
| IsNote (midi : Z)
| IsChord (midis : list Z)
| IsRest.

Record GeneralNote := mkGeneralNote {
  offset : Q;
  quarterLength : Q;
  isGrace : bool;                (* [duration.isGrace] *)
  velocity : option Q;           (* [volume.velocity] *)
  tie : option TieType;          (* [tie], and its [type] *)
  body : Body;
}.

Definition isNote (item : GeneralNote) : bool :=
  match body item with IsNote _ => true | _ => false end.
Definition isChord (item : GeneralNote) : bool :=
  match body item with IsChord _ => true | _ => false end.

(** [getInstrument()] *)
Record Instrument := mkInstrument {
  midiProgram : option Z;
  midiChannel : option Z;
}.

(** A stream, as the source sees it. *)
Record Stream := mkStream {
  metadata : option Metadata;
  (** [flat.metronomeMarkBoundaries()]: start, end, [getQuarterBPM()] *)
  metronomeMarkBoundaries : list (Q * Q * Qc);
  (** [flat.getElementsByClass(KeySignature)] *)
  keySignatures : list KeySignature;
  (** the time signature objects present in [flat] *)
  timeSignatures : list TimeSignature;
  (** the keys of [measureOffsetMap()] *)
  measureOffsetMap : list Q;
  (** [flat.notesAndRests] *)
  notesAndRests : list GeneralNote;
  getInstrument : Instrument;
  partName : option string;
}.

(** A part: a stream, and what [partitionByInstrument] answers for it,
    [None] or a stream of parts (falsy when it has no element). *)
Record Part := mkPart {
  part_stream : Stream;
  partitionByInstrument : option (list Stream);
}.

Record Score := mkScore {
  score_stream : Stream;
  parts : list Part;
}.

(** An opus, by its [scores]. *)
Record Opus := mkOpus {
  scores : list Score;
}.

(** What [from_music21] tells apart with [isinstance]: an opus, a part,
    or any other stream, which it takes for a score. *)
Inductive AnyStream :=
| AnOpus (opus : Opus)
| APart (part : Part)
| AScore (score : Score).

(** Modelled from the spec: [flat.getTimeSignatures()] belongs to music21;
    section 4.3 of the specification states what it answers for a stream
    without time signature, one 4/4 entry at offset 0. *)
Definition getTimeSignatures (s : Stream) : list TimeSignature :=
  match timeSignatures s with
  | [] => [mkTimeSignature 0 4 4]
  | tss => tss
  end.

End M21.

(** ** The source, function by function

    A parameter [resolution] that the source leaves to its default is
    passed as [DEFAULT_RESOLUTION] by the caller. *)

Definition parse_metadata (stream : M21.Stream) : option Metadata :=
  match M21.metadata stream with
  | None => None
  | Some md =>
      let creators := concat (M21.contributors md) in
      let copyright_ :=
        foldl (λ acc (item : string * string),
                 if decide (item.1 = "copyright") then Some item.2 else acc)
              None (M21.all md) in
      Some (Metadata.mk (M21.title md) creators copyright_)
  end.

Section annotations.
Context {sets : PySet}.

Definition parse_tempos (stream : M21.Stream) (resolution : Z)
  : list Tempo :=
  let tempos :=
    (λ '(start, _, qpm),
       Tempo.mk (py_round (start * inject_Z resolution)) qpm)
    <$> M21.metronomeMarkBoundaries stream in
  py_sorted Tempo.time (set_iter tempos).

Definition parse_key_signatures (stream : M21.Stream) (resolution : Z)
  : list KeySignature :=
  let key_signatures :=
    (λ item,
       match M21.key item with
       | Some (pitchClass, mode) =>
           KeySignature.mk
             (py_round (M21.ks_offset item * inject_Z resolution))
             (Some pitchClass) (Some mode) (M21.sharps item)
       | None =>
           KeySignature.mk
             (py_round (M21.ks_offset item * inject_Z resolution))
             None None (M21.sharps item)
       end)
    <$> M21.keySignatures stream in
  py_sorted KeySignature.time (set_iter key_signatures).

Definition parse_time_signatures (stream : M21.Stream) (resolution : Z)
  : list TimeSignature :=
  let time_signatures :=
    (λ item,
       TimeSignature.mk
         (py_round (M21.ts_offset item * inject_Z resolution))
         (M21.numerator item) (M21.denominator item))
    <$> M21.getTimeSignatures stream in
  py_sorted TimeSignature.time (set_iter time_signatures).

End annotations.

(** The [for j, time in enumerate(np.arange(...))] loop of [parse_beats],
    from index [j] on. *)
Fixpoint append_beats (numerator : Z) (j : nat) (times : list Q)
    (beats : list Beat) : result (list Beat) :=
  match times with
  | [] => Ok beats
  | time :: times' =>
      m ← py_mod (Z.of_nat j) numerator;
      if m =? 0
      then append_beats numerator (S j) times'
             (beats ++ [Beat.mk (py_round time) true])
      else append_beats numerator (S j) times'
             (beats ++ [Beat.mk (py_round time) false])
  end.

(** The test [time_sign_idx < len(time_signatures) - 1 and
    downbeats[downbeat_idx] >= time_signatures[time_sign_idx].time]. *)
Definition use_next (downbeats : list Z)
    (time_signatures : list TimeSignature)
    (time_sign_idx downbeat_idx : nat) : result bool :=
  if bool_decide (Z.of_nat time_sign_idx
                  < Z.of_nat (length time_signatures) - 1)
  then
    downbeat ← getitem downbeats downbeat_idx;
    current ← getitem time_signatures time_sign_idx;
    Ok (downbeat >=? TimeSignature.time current)
  else Ok false.

(** A turn of the [while] loop that does not [continue]: the beats of the
    measure at [downbeat_idx], appended to [beats]. *)
Definition measure_beats (downbeats : list Z)
    (time_signatures : list TimeSignature) (resolution : Z)
    (time_sign_idx downbeat_idx : nat) (beats : list Beat)
  : result (list Beat) :=
  (* Set time signature *)
  time_sign ← getitem time_signatures time_sign_idx;
  beat_resolution ←
    py_truediv (inject_Z resolution)
      (inject_Z (TimeSignature.denominator time_sign) / 4)%Q;
  (* Get the next downbeat *)
  downbeat ← getitem downbeats downbeat_idx;
  end_ ←
    (if bool_decide (Z.of_nat downbeat_idx
                     < Z.of_nat (length downbeats) - 1)
     then inject_Z <$> getitem downbeats (S downbeat_idx)
     else Ok (inject_Z downbeat
              + beat_resolution
                * inject_Z (TimeSignature.numerator time_sign))%Q);
  (* Append beats *)
  times ← np_arange (inject_Z downbeat) end_ beat_resolution;
  append_beats (TimeSignature.numerator time_sign) 0 times beats.

(** The [while] loop of [parse_beats].  Every turn moves one of the two
    cursors forward, so [fuel] turns are enough when [fuel] exceeds the
    two lengths together ([parse_beats_loop_fuel]). *)
Fixpoint parse_beats_loop (fuel : nat) (downbeats : list Z)
    (time_signatures : list TimeSignature) (resolution : Z)
    (time_sign_idx downbeat_idx : nat) (beats : list Beat)
  : result (list Beat) :=
  match fuel with
  | O => Raise OutOfFuel
  | S fuel' =>
      if bool_decide (downbeat_idx < length downbeats)%nat then
        (* Use next time signature *)
        next ← use_next downbeats time_signatures time_sign_idx
                 downbeat_idx;
        if (next : bool) then
          parse_beats_loop fuel' downbeats time_signatures resolution
            (S time_sign_idx) downbeat_idx beats
        else
          beats' ← measure_beats downbeats time_signatures resolution
                     time_sign_idx downbeat_idx beats;
          parse_beats_loop fuel' downbeats time_signatures resolution
            time_sign_idx (S downbeat_idx) beats'
      else Ok beats
  end.

(** The local variable [downbeats] of [parse_beats], once sorted. *)
Definition downbeats_of (stream : M21.Stream) (resolution : Z) : list Z :=
  py_sorted id
    ((λ offset, py_round (offset * inject_Z resolution))
     <$> M21.measureOffsetMap stream).

Definition parse_beats (stream : M21.Stream)
    (time_signatures : list TimeSignature) (resolution : Z)
  : result (list Beat) :=
  let downbeats := downbeats_of stream resolution in
  parse_beats_loop (S (length downbeats + length time_signatures))
    downbeats time_signatures resolution 0 0 [].

(** The local variables of [parse_notes_and_chords]: the two output lists
    and the open ties, from a pitch to the index of its note in [notes]. *)
Record nc_state := mk_nc_state {
  notes : list Note;
  chords : list Chord;
  ties : gmap Z nat;
}.

Definition is_outgoing_tie (item : M21.GeneralNote) : bool :=
  match M21.tie item with
  | Some M21.start | Some M21.continue => true
  | _ => false
  end.

(** One turn of the [for item in stream.flat.notesAndRests] loop. *)
Definition parse_item (resolution : Z) (st : nc_state)
    (item : M21.GeneralNote) : result nc_state :=
  (* Ignore rests *)
  if negb (M21.isNote item) && negb (M21.isChord item) then Ok st
  (* Ignore grace notes *)
  else if M21.isGrace item then Ok st
  else
    (* Parse note *)
    let time := py_round (M21.offset item * inject_Z resolution) in
    let duration :=
      py_round (M21.quarterLength item * inject_Z resolution) in
    let velocity := py_round <$> M21.velocity item in
    match M21.body item with
    | M21.IsNote pitch =>
        match ties st !! pitch with
        | Some note_idx =>
            note ← getitem (notes st) note_idx;
            let notes' :=
              <[note_idx := Note.add_duration duration note]> (notes st) in
            if is_outgoing_tie item
            then Ok (mk_nc_state notes' (chords st)
                       (<[pitch := note_idx]> (ties st)))
            else Ok (mk_nc_state notes' (chords st)
                       (delete pitch (ties st)))
        | None =>
            let note := Note.mk time pitch duration velocity in
            let notes' := notes st ++ [note] in
            if is_outgoing_tie item
            then Ok (mk_nc_state notes' (chords st)
                       (<[pitch := (length notes' - 1)%nat]> (ties st)))
            else Ok (mk_nc_state notes' (chords st) (ties st))
        end
    | M21.IsChord midis =>
        let chord := Chord.mk time midis duration velocity in
        Ok (mk_nc_state (notes st) (chords st ++ [chord]) (ties st))
    | M21.IsRest => Ok st
    end.

Fixpoint parse_items (resolution : Z) (items : list M21.GeneralNote)
    (st : nc_state) : result nc_state :=
  match items with
  | [] => Ok st
  | item :: items' =>
      st' ← parse_item resolution st item;
      parse_items resolution items' st'
  end.

Definition parse_notes_and_chords (stream : M21.Stream) (resolution : Z)
  : result (list Note * list Chord) :=
  st ← parse_items resolution (M21.notesAndRests stream)
         (mk_nc_state [] [] ∅);
  Ok (notes st, chords st).

Definition parse_track (part : M21.Stream) (resolution : Z)
  : result Track :=
  '(notes, chords) ← parse_notes_and_chords part resolution;
  let instrument := M21.getInstrument part in
  let program :=
    match M21.midiProgram instrument with
    | Some midiProgram => midiProgram
    | None => 0
    end in
  let is_drum :=
    match M21.midiChannel instrument with
    | Some midiChannel => midiChannel =? 10
    | None => false
    end in
  Ok (Track.mk program is_drum (M21.partName part) notes chords).

(** Truth value of the answer of [partitionByInstrument]. *)
Definition truthy (instruments : option (list M21.Stream)) : bool :=
  match instruments with
  | Some (_ :: _) => true
  | _ => false
  end.

Definition from_music21_part (part : M21.Part) (resolution : Z)
  : result (Track + list Track) :=
  let instruments := M21.partitionByInstrument part in
  if negb (truthy instruments)
  then inl <$> parse_track (M21.part_stream part) resolution
  else
    inr <$> mapM (λ instrument, parse_track instrument resolution)
              (default [] instruments).

(** The [for part in score.parts] loop of [from_music21_score]. *)
Fixpoint score_tracks (parts : list M21.Part) (tracks : list Track)
  : result (list Track) :=
  match parts with
  | [] => Ok tracks
  | part :: parts' =>
      let instruments := M21.partitionByInstrument part in
      if truthy instruments then
        new ← mapM (λ instrument, parse_track instrument DEFAULT_RESOLUTION)
                (default [] instruments);
        score_tracks parts' (tracks ++ new)
      else if (0 <? length (M21.notesAndRests (M21.part_stream part)))%nat
      then
        track ← parse_track (M21.part_stream part) DEFAULT_RESOLUTION;
        score_tracks parts' (tracks ++ [track])
      else score_tracks parts' tracks
  end.

Section score.
Context {sets : PySet}.

Definition from_music21_score (score : M21.Score) (resolution : Z)
  : result Music :=
  let stream := M21.score_stream score in
  tracks ← score_tracks (M21.parts score) [];
  let time_signatures := parse_time_signatures stream resolution in
  beats ← parse_beats stream time_signatures resolution;
  Ok (Music.mk
        (parse_metadata stream)
        DEFAULT_RESOLUTION
        (parse_tempos stream DEFAULT_RESOLUTION)
        (parse_key_signatures stream resolution)
        time_signatures
        beats
        tracks).

Definition from_music21_opus (opus : M21.Opus) (resolution : Z)
  : result (list Music) :=
  mapM (λ score, from_music21_score score resolution) (M21.scores opus).

(** [Union[Music, List[Music], Track, List[Track]]] *)
Inductive Converted :=
| AMusic (music : Music)
| Musics (musics : list Music)
| ATrack (track : Track)
| Tracks (tracks : list Track).

Definition from_music21 (stream : M21.AnyStream) (resolution : Z)
  : result Converted :=
  match stream with
  | M21.AnOpus opus => Musics <$> from_music21_opus opus resolution
  | M21.APart part =>
      (λ tracks : Track + list Track,
         match tracks with
         | inl track => ATrack track
         | inr tracks => Tracks tracks
         end) <$> from_music21_part part resolution
  | M21.AScore score => AMusic <$> from_music21_score score resolution
  end.

End score.

(** * Vocabulary of the properties *)

(** ** Notes, ties and chords *)

(** [item] is a note event at pitch [p] that the loop does not skip. *)
Definition is_note_at (p : Z) (item : M21.GeneralNote) : bool :=
  negb (M21.isGrace item)
  && match M21.body item with
     | M21.IsNote q => bool_decide (q = p)
     | _ => false
     end.

(** The sum of the quantized durations of some events. *)
Definition total_duration (resolution : Z) (items : list M21.GeneralNote)
  : Z :=
  foldr (λ item acc, quantize (M21.quarterLength item) resolution + acc)
        0 items.

(** Every open tie points at a note of its pitch. *)
Definition ties_wf (st : nc_state) : Prop :=
  ∀ q i, ties st !! q = Some i →
    ∃ n, notes st !! i = Some n ∧ Note.pitch n = q.

(** The notes at pitch [p], with their places, and the tie open at [p]
    are the same in both states. *)
Definition same_at (p : Z) (st st' : nc_state) : Prop :=
  ties st' !! p = ties st !! p
  ∧ ∀ j n, Note.pitch n = p →
      (notes st' !! j = Some n ↔ notes st !! j = Some n).

(** All notes at pitch [p] sit at index [i]. *)
Definition only_at (p : Z) (i : nat) (st : nc_state) : Prop :=
  ∀ j n, notes st !! j = Some n → Note.pitch n = p → j = i.

(** The chord an event yields: one for a chord event that is not a grace
    note, with the time, duration and velocity of that event alone. *)
Definition chord_of (resolution : Z) (item : M21.GeneralNote)
  : option Chord :=
  if M21.isGrace item then None
  else
    match M21.body item with
    | M21.IsChord midis =>
        Some (Chord.mk (quantize (M21.offset item) resolution) midis
                (quantize (M21.quarterLength item) resolution)
                (py_round <$> M21.velocity item))
    | _ => None
    end.

(** ** Sorted lists of timed records *)

Definition sorted_by_time {T} (time : T → Z) (l : list T) : Prop :=
  StronglySorted (λ a b, time a ≤ time b) l.

Definition strictly_sorted_by_time {T} (time : T → Z) (l : list T) : Prop :=
  StronglySorted (λ a b, time a < time b) l.

(** No two different records of [l] have the same time. *)
Definition distinct_times {T} (time : T → Z) (l : list T) : Prop :=
  ∀ x y, x ∈ l → y ∈ l → time x = time y → x = y.

(** What the three extractions promise, [extract sets] being the list
    one of them returns under the iteration order [sets]: under every
    order the list is sorted by time and free of duplicates; and once no
    two of its records share a time it is strictly sorted, and the same
    under every order. *)
Definition time_sorted_set {T} (time : T → Z) (extract : PySet → list T)
  : Prop :=
  (∀ sets, sorted_by_time time (extract sets) ∧ NoDup (extract sets))
  ∧ (∀ S1 S2, distinct_times time (extract S1) →
       strictly_sorted_by_time time (extract S1)
       ∧ extract S2 = extract S1).

(** ** Sample streams *)

Definition stream_of (tempos : list (Q * Q * Qc))
    (keys : list M21.KeySignature) (signatures : list M21.TimeSignature)
    (measures : list Q) (items : list M21.GeneralNote) : M21.Stream :=
  M21.mkStream None tempos keys signatures measures items
    (M21.mkInstrument None None) None.

Definition note_at (offset quarterLength : Q) (velocity : option Q)
    (tie : option M21.TieType) (midi : Z) : M21.GeneralNote :=
  M21.mkGeneralNote offset quarterLength false velocity tie
    (M21.IsNote midi).

Definition four_four : TimeSignature := TimeSignature.mk 0 4 4.
Definition three_four_at_96 : TimeSignature := TimeSignature.mk 96 3 4.

(** Two measures of four quarters. *)
Definition two_measures : M21.Stream := stream_of [] [] [] [0; 4]%Q [].

(** A measure of four quarters and two of three. *)
Definition three_measures : M21.Stream :=
  stream_of [] [] [] [0; 4; 7]%Q [].

(** One measure, no time signature, no part. *)
Definition unmetered_score : M21.Score :=
  M21.mkScore (stream_of [] [] [] [0]%Q []) [].

(** A tempo change and a key signature at offset 2, two quarter notes. *)
Definition mixed_score : M21.Score :=
  M21.mkScore
    (stream_of [(0, 2, Q2Qc 120); (2, 4, Q2Qc 90)]%Q
       [M21.mkKeySignature 2 1 None]
       [M21.mkTimeSignature 0 4 4] [0; 4]%Q [])
    [M21.mkPart
       (stream_of [] [] [] [0; 4]%Q
          [note_at 1 1 None None 60; note_at 2 1 None None 60])
       None].

(** A tie chain of three fragments at pitch 60, of velocities 64, 80 and
    30, with a note at 62 and a tied chord in between. *)
Definition tied_first : M21.GeneralNote :=
  note_at 0 1 (Some 64%Q) (Some M21.start) 60.
Definition tied_second : M21.GeneralNote :=
  note_at 1 (1 # 2) (Some 80%Q) (Some M21.continue) 60.
Definition tied_third : M21.GeneralNote :=
  note_at (3 # 2) 2 (Some 30%Q) (Some M21.stop) 60.
Definition tied_chord : M21.GeneralNote :=
  M21.mkGeneralNote 1 1 false None (Some M21.start) (M21.IsChord [64; 67]).

Definition tied_stream : M21.Stream :=
  stream_of [] [] [] [0]%Q
    [tied_first; note_at 0 4 None None 62; tied_second; tied_chord;
     tied_third].

(** A chain with the same first fragment, and later fragments of other
    velocities, offsets and lengths. *)
Definition tied_stream_louder : M21.Stream :=
  stream_of [] [] [] [0]%Q
    [tied_first;
     note_at 1 1 (Some 127%Q) (Some M21.continue) 60;
     note_at 2 3 None None 60].

(** A chord that is a grace note. *)
Definition grace_chord : M21.GeneralNote :=
  M21.mkGeneralNote 0 0 true None None (M21.IsChord [60; 64]).

(** Two staves with different key signatures at offset 0, as with a
    transposing instrument. *)
Definition transposing_stream : M21.Stream :=
  stream_of []
    [M21.mkKeySignature 0 0 None; M21.mkKeySignature 0 2 None] [] [0]%Q [].

(** A key change after one measure. *)
Definition modulating_stream : M21.Stream :=
  stream_of []
    [M21.mkKeySignature 0 0 None; M21.mkKeySignature 4 2 None;
     M21.mkKeySignature 0 0 None] [] [0; 4]%Q [].

(** A part without events: alone, and partitioned into one sub-part that
    holds its instrument. *)
Definition silent_part : M21.Part :=
  M21.mkPart (stream_of [] [] [] [0]%Q []) None.
Definition silent_partitioned_part : M21.Part :=
  M21.mkPart (stream_of [] [] [] [0]%Q [])
    (Some [stream_of [] [] [] [0]%Q []]).
Definition sounding_part : M21.Part :=
  M21.mkPart (stream_of [] [] [] [0]%Q [note_at 0 1 None None 60]) None.

(** ** Further samples *)

(** A time signature of denominator 0. *)
Definition zero_denominator : TimeSignature := TimeSignature.mk 0 4 0.

(** Notes without outgoing tie, a rest, a chord and a grace note. *)
Definition untied_stream : M21.Stream :=
  stream_of [] [] [] [0]%Q
    [note_at 0 1 (Some 90%Q) None 60;
     M21.mkGeneralNote 1 1 false None None M21.IsRest;
     note_at 2 (1 # 2) None (Some M21.stop) 60;
     tied_chord;
     M21.mkGeneralNote 3 0 true None None (M21.IsNote 72);
     note_at 3 1 None None 64].

(** A tie that opens at pitch 60 and that nothing closes. *)
Definition unclosed_stream : M21.Stream :=
  stream_of [] [] [] [0]%Q
    [tied_first; note_at 0 4 None None 62; tied_second].

(** ** Further vocabulary *)

(** [item] is a note event that the loop does not skip, at any pitch. *)
Definition is_note_event (item : M21.GeneralNote) : bool :=
  negb (M21.isGrace item) && M21.isNote item.

(** The note a note event yields when no tie is open at its pitch. *)
Definition note_of (resolution : Z) (item : M21.GeneralNote)
  : option Note :=
  if M21.isGrace item then None
  else
    match M21.body item with
    | M21.IsNote midi =>
        Some (Note.mk (quantize (M21.offset item) resolution) midi
                (quantize (M21.quarterLength item) resolution)
                (py_round <$> M21.velocity item))
    | _ => None
    end.

Definition sum_durations (notes : list Note) : Z :=
  foldr (λ note acc, Note.duration note + acc) 0 notes.

(** [stream] with [items] for its notes and rests. *)
Definition with_notesAndRests (items : list M21.GeneralNote)
    (stream : M21.Stream) : M21.Stream :=
  M21.mkStream (M21.metadata stream) (M21.metronomeMarkBoundaries stream)
    (M21.keySignatures stream) (M21.timeSignatures stream)
    (M21.measureOffsetMap stream) items
    (M21.getInstrument stream) (M21.partName stream).

(** The spacing of the beats under a time signature, in ticks. *)
Definition beat_resolution_of (resolution : Z) (ts : TimeSignature) : Q :=
  (inject_Z resolution / (inject_Z (TimeSignature.denominator ts) / 4))%Q.


(** The beats of [append_beats], from index [j] on. *)
Fixpoint beats_from (numerator : Z) (j : nat) (times : list Q)
  : list Beat :=
  match times with
  | [] => []
  | time :: times' =>
      Beat.mk (py_round time) (Z.of_nat j mod numerator =? 0)
      :: beats_from numerator (S j) times'
  end.

(** The copyright a metadata holds: the value of its last item of that
    key. *)
Definition last_copyright (md : M21.Metadata) : option string :=
  last (snd <$> List.filter
                  (λ item : string * string,
                     bool_decide (item.1 = "copyright"))
                  (M21.all md)).

(** ** Running out of fuel *)

(** [m] is a result of the source, not the end of the fuel. *)
Definition fuelled {A} (m : result A) : Prop := m ≠ Raise OutOfFuel.

(** * Properties *)

(** ** The primitives *)

Example py_round_halves :
  py_round (1 # 2) = 0 ∧ py_round (3 # 2) = 2 ∧ py_round (5 # 2) = 2
  ∧ py_round (-1 # 2) = 0 ∧ py_round (-3 # 2) = -2
  ∧ py_round (7 # 4) = 2 ∧ py_round (5 # 4) = 1.
Proof. by split_and!. Qed.

Lemma py_round_inject_Z z : py_round (inject_Z z) = z.
Proof.
  unfold py_round. rewrite Qfloor_Z.
  replace (inject_Z z - inject_Z z ?= 1 # 2)%Q with Lt; [done|].
  symmetry. unfold Qcompare. cbn. apply Z.compare_lt_iff. lia.
Qed.

Lemma quantize_0 resolution : quantize 0 resolution = 0.
Proof. reflexivity. Qed.

Lemma quantize_1 resolution : quantize 1 resolution = resolution.
Proof.
  unfold quantize.
  rewrite <-(py_round_inject_Z resolution) at 2.
  unfold Qmult. cbn. by destruct resolution.
Qed.

Example np_arange_measure :
  np_arange 0 96 24 = Ok [0; 24; 48; 72]%Q
  ∧ np_arange 0 90 24 = Ok [0; 24; 48; 72]%Q
  ∧ np_arange 96 0 24 = Ok []
  ∧ np_arange 0 96 0 = Raise ZeroDivisionError.
Proof. by split_and!. Qed.

Example py_sorted_stable :
  py_sorted fst [(2, 1); (1, 1); (2, 2); (1, 2); (0, 1)]
  = [(0, 1); (1, 1); (1, 2); (2, 1); (2, 2)].
Proof. reflexivity. Qed.

(** ** The note and chord extractor *)

Lemma ties_wf_init : ties_wf (mk_nc_state [] [] ∅).
Proof. intros q i Hq. simpl in Hq. by rewrite lookup_empty in Hq. Qed.

Lemma parse_item_wf r st item :
  ties_wf st → ∃ st', parse_item r st item = Ok st' ∧ ties_wf st'.
Proof.
  intros Hwf. unfold parse_item.
  destruct (negb (M21.isNote item) && negb (M21.isChord item)); [eauto|].
  destruct (M21.isGrace item); [eauto|].
  destruct (M21.body item) as [p|midis|]; [| eauto..].
  destruct (ties st !! p) as [i|] eqn:Hp.
  - destruct (Hwf _ _ Hp) as (n & Hn & Hpn).
    unfold getitem. rewrite Hn. cbn.
    assert (Hi : (i < length (notes st))%nat) by (by eapply lookup_lt_Some).
    destruct (is_outgoing_tie item); eexists; (split; [done|]);
      intros q j Hq; cbn in *.
    + destruct (decide (q = p)) as [->|Hne].
      * rewrite lookup_insert_eq in Hq. simplify_eq.
        rewrite list_lookup_insert_eq by done. eauto.
      * rewrite lookup_insert_ne in Hq by done.
        destruct (Hwf _ _ Hq) as (n' & Hn' & Hpn').
        destruct (decide (j = i)) as [->|Hji]; [congruence|].
        rewrite list_lookup_insert_ne by done. eauto.
    + destruct (decide (q = p)) as [->|Hne].
      * by rewrite lookup_delete_eq in Hq.
      * rewrite lookup_delete_ne in Hq by done.
        destruct (Hwf _ _ Hq) as (n' & Hn' & Hpn').
        destruct (decide (j = i)) as [->|Hji]; [congruence|].
        rewrite list_lookup_insert_ne by done. eauto.
  - destruct (is_outgoing_tie item); eexists; (split; [done|]);
      intros q j Hq; cbn in *.
    + destruct (decide (q = p)) as [->|Hne].
      * rewrite lookup_insert_eq in Hq. simplify_eq.
        rewrite length_app. cbn.
        replace (length (notes st) + 1 - 1)%nat
          with (length (notes st) + 0)%nat by lia.
        rewrite lookup_app_r by lia.
        replace (length (notes st) + 0 - length (notes st))%nat
          with 0%nat by lia.
        eauto.
      * rewrite lookup_insert_ne in Hq by done.
        destruct (Hwf _ _ Hq) as (n' & Hn' & Hpn').
        rewrite lookup_app_l by (by eapply lookup_lt_Some). eauto.
    + destruct (Hwf _ _ Hq) as (n' & Hn' & Hpn').
      rewrite lookup_app_l by (by eapply lookup_lt_Some). eauto.
Qed.

Lemma parse_items_wf r items st :
  ties_wf st → ∃ st', parse_items r items st = Ok st' ∧ ties_wf st'.
Proof.
  revert st; induction items as [|item items IH]; intros st Hwf; cbn.
  - eauto.
  - destruct (parse_item_wf r st item Hwf) as (st1 & -> & Hwf1). cbn.
    by apply IH.
Qed.

Lemma is_note_at_true p item :
  is_note_at p item = true →
  M21.isGrace item = false ∧ M21.body item = M21.IsNote p.
Proof.
  unfold is_note_at. destruct (M21.isGrace item); [done|].
  destruct (M21.body item) as [q| |]; [|done..].
  cbn. intros Hq. apply bool_decide_eq_true in Hq. by subst.
Qed.

Lemma same_at_refl p st : same_at p st st.
Proof. by split. Qed.

Lemma same_at_trans p st1 st2 st3 :
  same_at p st1 st2 → same_at p st2 st3 → same_at p st1 st3.
Proof.
  intros [Ht1 Hn1] [Ht2 Hn2]. split; [congruence|].
  intros j n Hp. by rewrite Hn2, Hn1.
Qed.

(** An event that is not a note at [p] leaves the notes at [p] alone. *)
Lemma parse_item_other p r st item st' :
  is_note_at p item = false → ties_wf st →
  parse_item r st item = Ok st' → same_at p st st'.
Proof.
  intros Hnot Hwf. unfold parse_item, is_note_at in *.
  destruct (negb (M21.isNote item) && negb (M21.isChord item));
    [intros [= <-]; apply same_at_refl|].
  destruct (M21.isGrace item); [intros [= <-]; apply same_at_refl|].
  destruct (M21.body item) as [q|midis|];
    [| intros [= <-]; by split.. ].
  cbn in Hnot. apply bool_decide_eq_false in Hnot.
  destruct (ties st !! q) as [i|] eqn:Hq.
  - destruct (Hwf _ _ Hq) as (n & Hn & Hpn).
    unfold getitem. rewrite Hn. cbn.
    assert (∀ j m, Note.pitch m = p →
      <[i := Note.add_duration
               (py_round (M21.quarterLength item * inject_Z r)) n]>
        (notes st) !! j = Some m ↔ notes st !! j = Some m) as Hnotes.
    { intros j m Hm. destruct (decide (j = i)) as [->|Hji].
      - rewrite list_lookup_insert_eq by (by eapply lookup_lt_Some).
        rewrite Hn. split; intros [= <-]; cbn in *; congruence.
      - by rewrite list_lookup_insert_ne. }
    destruct (is_outgoing_tie item); intros [= <-]; (split; [cbn|done]).
    + by rewrite lookup_insert_ne.
    + by rewrite lookup_delete_ne.
  - assert (∀ j m, Note.pitch m = p →
      (notes st ++
         [Note.mk (py_round (M21.offset item * inject_Z r)) q
            (py_round (M21.quarterLength item * inject_Z r))
            (py_round <$> M21.velocity item)]) !! j = Some m
      ↔ notes st !! j = Some m) as Hnotes.
    { intros j m Hm. destruct (decide (j < length (notes st))%nat).
      - by rewrite lookup_app_l.
      - rewrite lookup_app_r by lia.
        rewrite (lookup_ge_None_2 (notes st) j) by lia.
        split; [|done].
        destruct (j - length (notes st))%nat; cbn; [|done].
        intros [= <-]. cbn in *. congruence. }
    destruct (is_outgoing_tie item); intros [= <-]; (split; [cbn|done]).
    + by rewrite lookup_insert_ne.
    + done.
Qed.

(** A note at [p] while a tie is open at [p]: the open note grows. *)
Lemma parse_item_open p r st item i n0 :
  is_note_at p item = true →
  ties st !! p = Some i → notes st !! i = Some n0 →
  parse_item r st item =
    Ok (mk_nc_state
          (<[i := Note.add_duration
                    (quantize (M21.quarterLength item) r) n0]> (notes st))
          (chords st)
          (if is_outgoing_tie item then <[p := i]> (ties st)
           else delete p (ties st))).
Proof.
  intros Hp Ht Hn. apply is_note_at_true in Hp as [Hg Hb].
  unfold parse_item, M21.isNote, M21.isChord.
  rewrite Hg, Hb. cbn. rewrite Ht. unfold getitem. rewrite Hn. cbn.
  by destruct (is_outgoing_tie item).
Qed.

(** A note at [p] while no tie is open at [p]: a new note. *)
Lemma parse_item_new p r st item :
  is_note_at p item = true → ties st !! p = None →
  parse_item r st item =
    Ok (mk_nc_state
          (notes st ++
             [Note.mk (quantize (M21.offset item) r) p
                (quantize (M21.quarterLength item) r)
                (py_round <$> M21.velocity item)])
          (chords st)
          (if is_outgoing_tie item
           then <[p := length (notes st)]> (ties st)
           else ties st)).
Proof.
  intros Hp Ht. apply is_note_at_true in Hp as [Hg Hb].
  unfold parse_item, M21.isNote, M21.isChord.
  rewrite Hg, Hb. cbn. rewrite Ht.
  destruct (is_outgoing_tie item); [|done].
  rewrite length_app. cbn.
  by replace (length (notes st) + 1 - 1)%nat with (length (notes st))
    by lia.
Qed.

(** Events without a note at [p] leave the notes at [p] alone. *)
Lemma parse_items_other p r items st :
  List.filter (is_note_at p) items = [] → ties_wf st →
  ∃ st', parse_items r items st = Ok st' ∧ ties_wf st' ∧ same_at p st st'.
Proof.
  revert st; induction items as [|item items IH]; intros st Hf Hwf; cbn.
  - eauto using same_at_refl.
  - cbn in Hf. destruct (is_note_at p item) eqn:Hp; [done|].
    destruct (parse_item_wf r st item Hwf) as (st1 & Hst1 & Hwf1).
    rewrite Hst1. cbn.
    destruct (IH st1 Hf Hwf1) as (st' & -> & Hwf' & Hsame).
    eexists; split; [done|]. split; [done|].
    eapply same_at_trans; [|done]. by eapply parse_item_other.
Qed.

Lemma add_duration_add a b n :
  Note.add_duration b (Note.add_duration a n) = Note.add_duration (a + b) n.
Proof. unfold Note.add_duration. cbn. by rewrite Z.add_assoc. Qed.

Lemma only_at_same p i st st' :
  same_at p st st' → only_at p i st → only_at p i st'.
Proof.
  intros [_ Hn] Honly j n Hj Hp. apply (Honly j n); [|done].
  by apply Hn.
Qed.

(** From an open tie at [p] to its closing fragment. *)
Lemma parse_items_open p r items :
  ∀ st i n0 mids last,
    ties_wf st → ties st !! p = Some i → notes st !! i = Some n0 →
    Note.pitch n0 = p → only_at p i st →
    List.filter (is_note_at p) items = mids ++ [last] →
    Forall (λ f, is_outgoing_tie f = true) mids →
    is_outgoing_tie last = false →
    ∃ st', parse_items r items st = Ok st' ∧ ties_wf st'
      ∧ ties st' !! p = None
      ∧ notes st' !! i
        = Some (Note.add_duration (total_duration r (mids ++ [last])) n0)
      ∧ only_at p i st'.
Proof.
  induction items as [|item items IH];
    intros st i n0 mids last Hwf Ht Hn Hp Honly Hf Hmids Hlast.
  { cbn in Hf. by destruct mids. }
  cbn in Hf. cbn [parse_items].
  destruct (parse_item_wf r st item Hwf) as (st1 & Hst1 & Hwf1).
  rewrite Hst1. cbn.
  assert (Hi : (i < length (notes st))%nat) by (by eapply lookup_lt_Some).
  destruct (is_note_at p item) eqn:Hitem.
  - rewrite (parse_item_open p r st item i n0) in Hst1 by done.
    injection Hst1 as <-.
    destruct mids as [|m mids]; cbn in Hf; injection Hf as -> Hf.
    + (* the closing fragment *)
      rewrite Hlast in *.
      destruct (parse_items_other p r items _ Hf Hwf1)
        as (st' & Hst' & Hwf' & Hsame).
      exists st'. split; [done|]. split; [done|].
      destruct Hsame as [Hties Hnotes]. cbn in *.
      split; [by rewrite Hties, lookup_delete_eq|].
      split.
      * apply Hnotes; [done|].
        rewrite list_lookup_insert_eq by done.
        by rewrite Z.add_0_r.
      * intros j n Hj Hpn. apply Hnotes in Hj; [|done].
        destruct (decide (j = i)) as [|Hne]; [done|].
        rewrite list_lookup_insert_ne in Hj by done. by eapply Honly.
    + (* a continuing fragment *)
      apply Forall_cons in Hmids as [Hm Hmids]. rewrite Hm in *.
      edestruct (IH _ i
        (Note.add_duration (quantize (M21.quarterLength m) r) n0)
        mids last Hwf1) as (st' & Hst' & Hwf' & Hties & Hnote & Honly');
        try done.
      * cbn. by rewrite lookup_insert_eq.
      * cbn. by rewrite list_lookup_insert_eq.
      * intros j n Hj Hpn. cbn in Hj.
        destruct (decide (j = i)) as [|Hne]; [done|].
        rewrite list_lookup_insert_ne in Hj by done. by eapply Honly.
      * exists st'. split; [done|]. split; [done|]. split; [done|].
        split; [|done]. by rewrite Hnote, add_duration_add.
  - pose proof (parse_item_other p r st item st1 Hitem Hwf Hst1) as Hsame.
    destruct Hsame as [Hties Hnotes].
    apply (IH st1 i n0 mids last); try done.
    + congruence.
    + by apply Hnotes.
    + by eapply only_at_same.
Qed.

(** A whole tie chain at [p], from a state without notes at [p]. *)
Lemma parse_items_chain p r items :
  ∀ st first mids last,
    ties_wf st → ties st !! p = None →
    (∀ j n, notes st !! j = Some n → Note.pitch n ≠ p) →
    List.filter (is_note_at p) items = first :: mids ++ [last] →
    is_outgoing_tie first = true →
    Forall (λ f, is_outgoing_tie f = true) mids →
    is_outgoing_tie last = false →
    ∃ st' i, parse_items r items st = Ok st'
      ∧ notes st' !! i
        = Some (Note.mk (quantize (M21.offset first) r) p
                  (total_duration r (first :: mids ++ [last]))
                  (py_round <$> M21.velocity first))
      ∧ only_at p i st'.
Proof.
  induction items as [|item items IH];
    intros st first mids last Hwf Ht Habs Hf Hfirst Hmids Hlast.
  { done. }
  cbn in Hf. cbn [parse_items].
  destruct (parse_item_wf r st item Hwf) as (st1 & Hst1 & Hwf1).
  rewrite Hst1. cbn.
  destruct (is_note_at p item) eqn:Hitem.
  - injection Hf as -> Hf.
    rewrite (parse_item_new p r st first) in Hst1 by done.
    injection Hst1 as <-. rewrite Hfirst in *.
    edestruct (parse_items_open p r items _ (length (notes st))
      (Note.mk (quantize (M21.offset first) r) p
         (quantize (M21.quarterLength first) r)
         (py_round <$> M21.velocity first))
      mids last Hwf1) as (st' & Hst' & _ & _ & Hnote & Honly);
      try done.
    + cbn. by rewrite lookup_insert_eq.
    + cbn. rewrite lookup_app_r by lia.
      by replace (length (notes st) - length (notes st))%nat with 0%nat
        by lia.
    + intros j n Hj Hpn. cbn in Hj.
      destruct (decide (j < length (notes st))%nat).
      * rewrite lookup_app_l in Hj by done. by destruct (Habs j n).
      * apply lookup_lt_Some in Hj. rewrite length_app in Hj.
        cbn in Hj. lia.
    + exists st', (length (notes st)). split; [done|]. split; [|done].
      by rewrite Hnote.
  - pose proof (parse_item_other p r st item st1 Hitem Hwf Hst1) as Hsame.
    destruct Hsame as [Hties Hnotes].
    apply (IH st1 first mids last); try done.
    + congruence.
    + intros j n Hj Hpn. apply (Habs j n); [|done].
      by apply Hnotes.
Qed.

Lemma parse_item_chord r st item chord :
  chord_of r item = Some chord →
  parse_item r st item
  = Ok (mk_nc_state (notes st) (chords st ++ [chord]) (ties st)).
Proof.
  unfold chord_of, parse_item, M21.isNote, M21.isChord.
  destruct (M21.isGrace item); [done|].
  destruct (M21.body item); [done| |done].
  by intros [= <-].
Qed.

Lemma parse_item_no_chord r st item st' :
  chord_of r item = None → parse_item r st item = Ok st' →
  chords st' = chords st.
Proof.
  unfold chord_of, parse_item, M21.isNote, M21.isChord.
  destruct (M21.isGrace item).
  { by destruct (M21.body item); intros _ [= <-]. }
  destruct (M21.body item) as [p| |]; [|done|by intros _ [= <-]].
  cbn. intros _.
  destruct (ties st !! p) as [i|].
  - unfold getitem. destruct (notes st !! i); [|done]. cbn.
    by destruct (is_outgoing_tie item); intros [= <-].
  - by destruct (is_outgoing_tie item); intros [= <-].
Qed.

Lemma parse_items_chords r items st st' :
  parse_items r items st = Ok st' →
  chords st' = chords st ++ omap (chord_of r) items.
Proof.
  revert st; induction items as [|item items IH]; intros st; cbn.
  - intros [= <-]. by rewrite app_nil_r.
  - destruct (parse_item r st item) as [st1|] eqn:Hst1; [|done]. cbn.
    intros Hst'. rewrite (IH _ Hst').
    destruct (chord_of r item) as [chord|] eqn:Hc.
    + rewrite (parse_item_chord r st item chord Hc) in Hst1.
      injection Hst1 as <-. cbn. by rewrite <-app_assoc.
    + by rewrite (parse_item_no_chord r st item st1 Hc Hst1).
Qed.

(** [parse_notes_and_chords] raises on no stream. *)
Lemma parse_notes_and_chords_returns stream r :
  ∃ notes chords, parse_notes_and_chords stream r = Ok (notes, chords).
Proof.
  unfold parse_notes_and_chords.
  destruct (parse_items_wf r (M21.notesAndRests stream)
              (mk_nc_state [] [] ∅) ties_wf_init) as (st & -> & _).
  cbn. eauto.
Qed.

Lemma parse_track_returns part r :
  ∃ notes chords,
    parse_notes_and_chords part r = Ok (notes, chords)
    ∧ parse_track part r
      = Ok (Track.mk
              (default 0 (M21.midiProgram (M21.getInstrument part)))
              (bool_decide (M21.midiChannel (M21.getInstrument part)
                            = Some 10))
              (M21.partName part) notes chords).
Proof.
  destruct (parse_notes_and_chords_returns part r) as (ns & cs & Hnc).
  exists ns, cs. split; [done|].
  unfold parse_track. rewrite Hnc. cbn. do 2 f_equal.
  destruct (M21.midiChannel _) as [c|]; [|done].
  destruct (Z.eqb_spec c 10) as [->|Hne]; [done|].
  symmetry. apply bool_decide_eq_false. congruence.
Qed.

(** ** Sorting by time *)

Section py_sorted.
Context {T : Type} (key : T → Z).

Lemma insert_by_Permutation x l : insert_by key x l ≡ₚ x :: l.
Proof.
  induction l as [|y l IH]; cbn; [done|].
  case_bool_decide; [|done]. rewrite IH. apply Permutation_swap.
Qed.

Lemma py_sorted_Permutation l : py_sorted key l ≡ₚ l.
Proof.
  unfold py_sorted.
  enough (∀ acc, foldl (λ acc x, insert_by key x acc) acc l ≡ₚ acc ++ l)
    as Hgen by apply (Hgen []).
  induction l as [|x l IH]; intros acc; cbn.
  - by rewrite app_nil_r.
  - rewrite IH, insert_by_Permutation. cbn. apply Permutation_middle.
Qed.

Lemma insert_by_sorted x l :
  sorted_by_time key l → sorted_by_time key (insert_by key x l).
Proof.
  unfold sorted_by_time.
  induction 1 as [|y l Hl IH Hy]; cbn.
  - repeat constructor.
  - case_bool_decide as Hle.
    + constructor; [done|].
      rewrite insert_by_Permutation. by constructor.
    + constructor; [by constructor|].
      constructor; [lia|].
      eapply Forall_impl; [done|]. cbn. intros z Hz. lia.
Qed.

Lemma py_sorted_sorted l : sorted_by_time key (py_sorted key l).
Proof.
  unfold py_sorted.
  enough (∀ acc, sorted_by_time key acc →
            sorted_by_time key (foldl (λ acc x, insert_by key x acc) acc l))
    as Hgen by (apply Hgen; constructor).
  induction l as [|x l IH]; intros acc Hacc; cbn; [done|].
  by apply IH, insert_by_sorted.
Qed.

Lemma sorted_distinct_strict l :
  sorted_by_time key l → NoDup l → distinct_times key l →
  strictly_sorted_by_time key l.
Proof.
  unfold sorted_by_time, strictly_sorted_by_time.
  induction 1 as [|x l Hl IH Hx]; intros Hnd Hdist; [constructor|].
  apply NoDup_cons in Hnd as [Hxl Hnd].
  constructor.
  - apply IH; [done|]. intros a b Ha Hb. apply Hdist; by right.
  - rewrite Forall_forall in Hx |- *. intros y Hy.
    destruct (decide (key x = key y)) as [Heq|Hne].
    + apply Hdist in Heq; [|by left|by right]. by subst.
    + specialize (Hx y Hy). cbn in Hx. lia.
Qed.

(** Sorting forgets the order of its input when times identify records. *)
Lemma py_sorted_unique l1 l2 :
  l1 ≡ₚ l2 → distinct_times key l1 → py_sorted key l1 = py_sorted key l2.
Proof.
  intros Hperm Hdist.
  apply (StronglySorted_unique_strong (λ a b, key a ≤ key b)).
  - intros x y Hx Hy Hxy Hyx.
    rewrite py_sorted_Permutation in Hx.
    rewrite py_sorted_Permutation, <-Hperm in Hy.
    apply Hdist; [done..|lia].
  - apply py_sorted_sorted.
  - apply py_sorted_sorted.
  - by rewrite !py_sorted_Permutation.
Qed.

End py_sorted.

(** What the three extractions share: [sorted(s, key=attrgetter("time"))]
    for a set [s] filled by the calls [s.add(x)], [x] in [adds]. *)
Section sorted_set.
Context {T : Type} `{EqDecision T} (time : T → Z) (adds : list T).

Lemma sorted_set_spec (sets : PySet) :
  sorted_by_time time (py_sorted time (set_iter adds))
  ∧ NoDup (py_sorted time (set_iter adds))
  ∧ ∀ x, x ∈ py_sorted time (set_iter adds) ↔ x ∈ adds.
Proof.
  split; [apply py_sorted_sorted|]. split.
  - rewrite py_sorted_Permutation. apply set_iter_NoDup.
  - intros x. rewrite py_sorted_Permutation. apply set_iter_elem.
Qed.

Lemma sorted_set_sorted (sets : PySet) :
  sorted_by_time time (py_sorted time (set_iter adds))
  ∧ NoDup (py_sorted time (set_iter adds)).
Proof. by destruct (sorted_set_spec sets) as (? & ? & _). Qed.

Lemma sorted_set_strict (S1 S2 : PySet) :
  distinct_times time (py_sorted time (set_iter (PySet := S1) adds)) →
  strictly_sorted_by_time time
    (py_sorted time (set_iter (PySet := S1) adds))
  ∧ py_sorted time (set_iter (PySet := S2) adds)
    = py_sorted time (set_iter (PySet := S1) adds).
Proof.
  intros Hdist.
  destruct (sorted_set_spec S1) as (Hs & Hnd & Hel).
  split; [by apply sorted_distinct_strict|].
  apply py_sorted_unique.
  - apply NoDup_Permutation; [apply set_iter_NoDup..|].
    intros x. by rewrite !set_iter_elem.
  - intros x y Hx Hy. apply Hdist.
    + apply Hel. by rewrite set_iter_elem in Hx.
    + apply Hel. by rewrite set_iter_elem in Hy.
Qed.

End sorted_set.

(** ** The beat grid *)

Lemma Qeq_bool_div_nonzero (a b : Q) :
  ¬ (a == 0)%Q → ¬ (b == 0)%Q → Qeq_bool (a / b) 0 = false.
Proof.
  intros Ha Hb. destruct (Qeq_bool (a / b) 0) eqn:E; [|done].
  apply Qeq_bool_eq in E. exfalso.
  apply Ha. rewrite <-(Qmult_div_r a b) by done. rewrite E. ring.
Qed.

Lemma inject_Z_nonzero z : z ≠ 0 → ¬ (inject_Z z == 0)%Q.
Proof.
  intros Hz Heq. apply Hz. by apply (inject_Z_injective z 0) in Heq.
Qed.

Lemma append_beats_returns numerator times :
  numerator ≠ 0 →
  ∀ j beats, returns (append_beats numerator j times beats).
Proof.
  intros Hn. induction times as [|time times IH]; intros j beats; cbn.
  - by eexists.
  - unfold py_mod. destruct (Z.eqb_spec numerator 0); [done|]. cbn.
    destruct (_ =? 0); apply IH.
Qed.

Lemma getitem_Some {A} (l : list A) i a : l !! i = Some a → getitem l i = Ok a.
Proof. unfold getitem. by intros ->. Qed.

Lemma getitem_None {A} (l : list A) i :
  l !! i = None → getitem l i = Raise IndexError.
Proof. unfold getitem. by intros ->. Qed.

(** A measure raises only for want of a time signature, or on a zero
    numerator, denominator or resolution. *)
Lemma measure_beats_returns downbeats time_signatures resolution i j beats :
  resolution ≠ 0 →
  Forall (λ ts, TimeSignature.numerator ts ≠ 0
                ∧ TimeSignature.denominator ts ≠ 0) time_signatures →
  (i < length time_signatures)%nat → (j < length downbeats)%nat →
  returns (measure_beats downbeats time_signatures resolution i j beats).
Proof.
  intros Hr Hts Hi Hj.
  destruct (lookup_lt_is_Some_2 downbeats j Hj) as [d Hd].
  destruct (lookup_lt_is_Some_2 time_signatures i Hi) as [ts Hi'].
  eapply Forall_lookup_1 in Hts as [Hnum Hden]; [|done].
  unfold measure_beats.
  rewrite (getitem_Some _ _ _ Hi'), (getitem_Some _ _ _ Hd). cbn.
  unfold py_truediv.
  rewrite (Qeq_bool_div_nonzero (inject_Z (TimeSignature.denominator ts)) 4)
    by (by apply inject_Z_nonzero).
  cbn.
  assert (returns
    (if bool_decide (Z.of_nat j < Z.of_nat (length downbeats) - 1)
     then inject_Z <$> getitem downbeats (S j)
     else Ok (inject_Z d
              + inject_Z resolution
                / (inject_Z (TimeSignature.denominator ts) / 4)
                * inject_Z (TimeSignature.numerator ts))%Q))
    as [end_ ->].
  { case_bool_decide as Hlast; [|by eexists].
    destruct (lookup_lt_is_Some_2 downbeats (S j)) as [d' Hd']; [lia|].
    rewrite (getitem_Some _ _ _ Hd'). by eexists. }
  cbn. unfold np_arange.
  rewrite Qeq_bool_div_nonzero; cycle 1.
  { by apply inject_Z_nonzero. }
  { apply Qeq_bool_neq, Qeq_bool_div_nonzero; by apply inject_Z_nonzero. }
  cbn. by apply append_beats_returns.
Qed.

Lemma use_next_returns downbeats time_signatures i j :
  (i < length time_signatures)%nat → (j < length downbeats)%nat →
  ∃ next, use_next downbeats time_signatures i j = Ok next
    ∧ (next = true → (S i < length time_signatures)%nat).
Proof.
  intros Hi Hj.
  destruct (lookup_lt_is_Some_2 downbeats j Hj) as [d Hd].
  destruct (lookup_lt_is_Some_2 time_signatures i Hi) as [ts Hi'].
  unfold use_next. case_bool_decide.
  - rewrite (getitem_Some _ _ _ Hi'), (getitem_Some _ _ _ Hd). cbn.
    eexists; split; [done|]. lia.
  - by eexists.
Qed.

(** The cursor moves on as soon as the measure start has reached the time
    of the signature it is on, whatever the time of the next one. *)
Lemma use_next_compares_current downbeats time_signatures i j d ts :
  downbeats !! j = Some d → time_signatures !! i = Some ts →
  (S i < length time_signatures)%nat →
  use_next downbeats time_signatures i j
  = Ok (d >=? TimeSignature.time ts).
Proof.
  intros Hd Hts Hi. unfold use_next.
  rewrite bool_decide_eq_true_2 by lia.
  by rewrite (getitem_Some _ _ _ Hd), (getitem_Some _ _ _ Hts).
Qed.

(** The loop returns under the same conditions, and with the fuel that
    [parse_beats] gives it. *)
Lemma parse_beats_loop_returns downbeats time_signatures resolution :
  resolution ≠ 0 →
  Forall (λ ts, TimeSignature.numerator ts ≠ 0
                ∧ TimeSignature.denominator ts ≠ 0) time_signatures →
  ∀ fuel time_sign_idx downbeat_idx beats,
    (time_sign_idx < length time_signatures)%nat →
    (length downbeats - downbeat_idx
     + (length time_signatures - time_sign_idx) ≤ fuel)%nat →
    returns (parse_beats_loop fuel downbeats time_signatures resolution
               time_sign_idx downbeat_idx beats).
Proof.
  intros Hr Hts.
  induction fuel as [|fuel IH]; intros i j beats Hi Hfuel; [lia|].
  cbn [parse_beats_loop].
  case_bool_decide as Hj; [|by eexists].
  destruct (use_next_returns downbeats time_signatures i j Hi Hj)
    as (next & -> & Hnext).
  cbn. destruct next.
  - apply IH; [by apply Hnext|]. specialize (Hnext eq_refl). lia.
  - destruct (measure_beats_returns downbeats time_signatures resolution
                i j beats Hr Hts Hi Hj) as [beats' ->].
    cbn. apply IH; lia.
Qed.

Lemma fuelled_bind {A B} (m : result A) (f : A → result B) :
  fuelled m → (∀ a, fuelled (f a)) → fuelled (m ≫= f).
Proof. destruct m; cbn; [auto|]. unfold fuelled. congruence. Qed.

Lemma fuelled_getitem {A} (l : list A) i : fuelled (getitem l i).
Proof. unfold getitem, fuelled. by destruct (l !! i). Qed.

Lemma fuelled_append_beats n times :
  ∀ j beats, fuelled (append_beats n j times beats).
Proof.
  induction times as [|t times IH]; intros j beats; cbn; [done|].
  apply fuelled_bind.
  - unfold py_mod. by destruct (n =? 0).
  - intros m. destruct (m =? 0); apply IH.
Qed.

Lemma fuelled_measure_beats downbeats time_signatures resolution i j beats :
  fuelled (measure_beats downbeats time_signatures resolution i j beats).
Proof.
  unfold measure_beats.
  apply fuelled_bind; [apply fuelled_getitem|]. intros ts.
  apply fuelled_bind; [unfold py_truediv; by destruct (Qeq_bool _ _)|].
  intros beat_resolution.
  apply fuelled_bind; [apply fuelled_getitem|]. intros d.
  apply fuelled_bind.
  { case_bool_decide; [|done].
    unfold getitem. by destruct (downbeats !! S j). }
  intros end_.
  apply fuelled_bind; [unfold np_arange; by destruct (Qeq_bool _ _)|].
  intros times. apply fuelled_append_beats.
Qed.

Lemma parse_beats_loop_fuel downbeats time_signatures resolution :
  ∀ fuel time_sign_idx downbeat_idx beats,
    (length downbeats - downbeat_idx
     + (length time_signatures - time_sign_idx) < fuel)%nat →
    fuelled (parse_beats_loop fuel downbeats time_signatures resolution
               time_sign_idx downbeat_idx beats).
Proof.
  induction fuel as [|fuel IH]; intros i j beats Hfuel; [lia|].
  cbn [parse_beats_loop].
  case_bool_decide as Hj; [|done].
  unfold use_next. case_bool_decide as Hi.
  - apply fuelled_bind.
    { apply fuelled_bind; [apply fuelled_getitem|]. intros d.
      apply fuelled_bind; [apply fuelled_getitem|]. done. }
    intros [|].
    + apply IH. lia.
    + apply fuelled_bind; [apply fuelled_measure_beats|].
      intros beats'. apply IH. lia.
  - cbn. apply fuelled_bind; [apply fuelled_measure_beats|].
    intros beats'. apply IH. lia.
Qed.

Lemma parse_beats_fuelled stream time_signatures resolution :
  fuelled (parse_beats stream time_signatures resolution).
Proof. unfold parse_beats. apply parse_beats_loop_fuel. lia. Qed.

Lemma parse_beats_returns stream time_signatures resolution :
  resolution ≠ 0 → time_signatures ≠ [] →
  Forall (λ ts, TimeSignature.numerator ts ≠ 0
                ∧ TimeSignature.denominator ts ≠ 0) time_signatures →
  returns (parse_beats stream time_signatures resolution).
Proof.
  intros Hr Hne Hts. unfold parse_beats.
  apply parse_beats_loop_returns; [done..| |lia].
  destruct time_signatures; [done|]. cbn. lia.
Qed.

(** Without a time signature the first measure raises. *)
Lemma parse_beats_nil stream resolution :
  M21.measureOffsetMap stream ≠ [] →
  parse_beats stream [] resolution = Raise IndexError.
Proof.
  intros Hne. unfold parse_beats.
  assert (downbeats_of stream resolution ≠ []) as Hd.
  { unfold downbeats_of. intros Hnil.
    apply (f_equal length) in Hnil.
    rewrite (Permutation_length (py_sorted_Permutation _ _)) in Hnil.
    rewrite length_fmap in Hnil. by destruct (M21.measureOffsetMap stream). }
  destruct (downbeats_of stream resolution) as [|d ds]; [done|].
  reflexivity.
Qed.

(** ** The score assembler *)

Lemma mapM_parse_track_returns r parts :
  ∃ tracks, mapM (λ part, parse_track part r) parts = Ok tracks
    ∧ length tracks = length parts.
Proof.
  induction parts as [|part parts (tracks & IH & Hlen)]; cbn.
  - by eexists.
  - destruct (parse_track_returns part r) as (ns & cs & _ & ->). cbn.
    rewrite IH. cbn. eexists; split; [done|]. cbn. by rewrite Hlen.
Qed.

Lemma score_tracks_returns parts :
  ∀ tracks, returns (score_tracks parts tracks).
Proof.
  induction parts as [|part parts IH]; intros tracks; cbn.
  - by eexists.
  - destruct (truthy _).
    + destruct (mapM_parse_track_returns DEFAULT_RESOLUTION
                  (default [] (M21.partitionByInstrument part)))
        as (new & -> & _).
      cbn. apply IH.
    + destruct (length (M21.notesAndRests _)); [apply IH|].
      destruct (parse_track_returns (M21.part_stream part)
                  DEFAULT_RESOLUTION) as (ns & cs & _ & ->).
      cbn. apply IH.
Qed.

(** A part without events and without partition adds nothing. *)
Lemma score_tracks_skip pre part post :
  M21.notesAndRests (M21.part_stream part) = [] →
  truthy (M21.partitionByInstrument part) = false →
  ∀ tracks,
    score_tracks (pre ++ part :: post) tracks
    = score_tracks (pre ++ post) tracks.
Proof.
  intros Hempty Hfalsy.
  induction pre as [|part' pre IH]; intros tracks; cbn.
  - by rewrite Hfalsy, Hempty.
  - destruct (truthy (M21.partitionByInstrument part')).
    + destruct (mapM _ _); cbn; [apply IH|done].
    + destruct (length (M21.notesAndRests (M21.part_stream part')));
        [apply IH|].
      destruct (parse_track _ _); cbn; [apply IH|done].
Qed.

Lemma from_music21_score_Ok {sets : PySet} score resolution tracks beats :
  score_tracks (M21.parts score) [] = Ok tracks →
  parse_beats (M21.score_stream score)
    (parse_time_signatures (M21.score_stream score) resolution) resolution
  = Ok beats →
  from_music21_score score resolution
  = Ok (Music.mk
          (parse_metadata (M21.score_stream score))
          DEFAULT_RESOLUTION
          (parse_tempos (M21.score_stream score) DEFAULT_RESOLUTION)
          (parse_key_signatures (M21.score_stream score) resolution)
          (parse_time_signatures (M21.score_stream score) resolution)
          beats
          tracks).
Proof.
  intros Htracks Hbeats. unfold from_music21_score.
  rewrite Htracks. cbv zeta. unfold mbind at 1, result_bind at 1.
  by rewrite Hbeats.
Qed.

Lemma set_iter_singleton `{PySet} {T} `{EqDecision T} (x : T) :
  set_iter [x] = [x].
Proof.
  apply Permutation_singleton_r, NoDup_Permutation.
  - apply set_iter_NoDup.
  - apply NoDup_singleton.
  - apply set_iter_elem.
Qed.

(** * The claims *)

(** C8.  Beat grid under one time signature: with 4/4 at tick 0, at
    resolution 24, and measures starting at ticks 0 and 96, [parse_beats]
    returns eight beats, at ticks 0, 24, 48, 72, 96, 120, 144 and 168,
    and the downbeats are those at 0 and 96. *)
Theorem parse_beats_two_measures (stream : M21.Stream) :
  downbeats_of stream 24 = [0; 96] →
  parse_beats stream [four_four] 24
  = Ok [Beat.mk 0 true; Beat.mk 24 false; Beat.mk 48 false;
        Beat.mk 72 false; Beat.mk 96 true; Beat.mk 120 false;
        Beat.mk 144 false; Beat.mk 168 false].
Proof. intros Hd. unfold parse_beats. rewrite Hd. reflexivity. Qed.

Lemma parse_beats_two_measures_witness :
  downbeats_of two_measures 24 = [0; 96]
  ∧ parse_beats two_measures [four_four] 24
    = Ok [Beat.mk 0 true; Beat.mk 24 false; Beat.mk 48 false;
          Beat.mk 72 false; Beat.mk 96 true; Beat.mk 120 false;
          Beat.mk 144 false; Beat.mk 168 false].
Proof.
  split; [reflexivity|]. apply parse_beats_two_measures. reflexivity.
Defined.

(** C1, on the code.  With 4/4 at tick 0, 3/4 at tick 96 and measures
    starting at ticks 0, 96 and 168, the cursor leaves the first time
    signature at the first measure, whose start has reached the time of
    that first signature: every measure is counted in three, and tick 72
    comes out as a downbeat. *)
Theorem parse_beats_meter_change :
  parse_beats three_measures [four_four; three_four_at_96] 24
  = Ok [Beat.mk 0 true; Beat.mk 24 false; Beat.mk 48 false;
        Beat.mk 72 true; Beat.mk 96 true; Beat.mk 120 false;
        Beat.mk 144 false; Beat.mk 168 true; Beat.mk 192 false;
        Beat.mk 216 false].
Proof. reflexivity. Qed.

(** C9.  Track instrument defaults: [parse_track] returns a track whose
    program is the MIDI program of the instrument when it declares one
    and 0 otherwise, and which is a drum track exactly when the
    instrument declares MIDI channel 10. *)
Theorem parse_track_instrument (part : M21.Stream) (resolution : Z) :
  ∃ track, parse_track part resolution = Ok track
    ∧ Track.program track
      = match M21.midiProgram (M21.getInstrument part) with
        | Some midiProgram => midiProgram
        | None => 0
        end
    ∧ (Track.is_drum track = true
       ↔ M21.midiChannel (M21.getInstrument part) = Some 10).
Proof.
  destruct (parse_track_returns part resolution) as (ns & cs & _ & ->).
  eexists. split; [done|]. cbn. split; [done|].
  apply bool_decide_eq_true.
Qed.

Lemma is_outgoing_tie_start item :
  M21.tie item = Some M21.start → is_outgoing_tie item = true.
Proof. unfold is_outgoing_tie. by intros ->. Qed.

Lemma is_outgoing_tie_continue item :
  M21.tie item = Some M21.continue → is_outgoing_tie item = true.
Proof. unfold is_outgoing_tie. by intros ->. Qed.

Lemma is_outgoing_tie_stop item :
  M21.tie item = Some M21.stop → is_outgoing_tie item = false.
Proof. unfold is_outgoing_tie. by intros ->. Qed.

(** The notes of a stream whose notes at [p] form one tie chain. *)
Lemma parse_notes_and_chords_chain stream r p first mids last :
  List.filter (is_note_at p) (M21.notesAndRests stream)
  = first :: mids ++ [last] →
  is_outgoing_tie first = true →
  Forall (λ f, is_outgoing_tie f = true) mids →
  is_outgoing_tie last = false →
  ∃ notes chords i,
    parse_notes_and_chords stream r = Ok (notes, chords)
    ∧ notes !! i
      = Some (Note.mk (quantize (M21.offset first) r) p
                (total_duration r (first :: mids ++ [last]))
                (py_round <$> M21.velocity first))
    ∧ ∀ j n, notes !! j = Some n → Note.pitch n = p → j = i.
Proof.
  intros Hf Hfirst Hmids Hlast.
  destruct (parse_items_chain p r (M21.notesAndRests stream)
              (mk_nc_state [] [] ∅) first mids last)
    as (st & i & Hst & Hnote & Honly); try done; try apply ties_wf_init.
  unfold parse_notes_and_chords. rewrite Hst. cbn.
  by exists (notes st), (chords st), i.
Qed.

(** C4.  Tie merging: when the notes of a part at pitch [p] are the
    fragments of one tie chain, the first tied [start], those in the
    middle [continue] and the last [stop], [parse_notes_and_chords]
    returns exactly one note at [p]; its time is the quantized offset of
    the first fragment and its duration the sum of the quantized
    durations of all the fragments, however many they are. *)
Theorem tie_chain_merged (stream : M21.Stream) (resolution p : Z)
    (first : M21.GeneralNote) (mids : list M21.GeneralNote)
    (last : M21.GeneralNote) :
  List.filter (is_note_at p) (M21.notesAndRests stream)
  = first :: mids ++ [last] →
  M21.tie first = Some M21.start →
  Forall (λ f, M21.tie f = Some M21.continue) mids →
  M21.tie last = Some M21.stop →
  ∃ notes chords i note,
    parse_notes_and_chords stream resolution = Ok (notes, chords)
    ∧ notes !! i = Some note
    ∧ Note.pitch note = p
    ∧ Note.time note = quantize (M21.offset first) resolution
    ∧ Note.duration note
      = total_duration resolution (first :: mids ++ [last])
    ∧ ∀ j n, notes !! j = Some n → Note.pitch n = p → j = i.
Proof.
  intros Hf Hfirst Hmids Hlast.
  destruct (parse_notes_and_chords_chain stream resolution p
              first mids last Hf)
    as (ns & cs & i & Hnc & Hnote & Honly).
  - by apply is_outgoing_tie_start.
  - eapply Forall_impl; [done|]. apply is_outgoing_tie_continue.
  - by apply is_outgoing_tie_stop.
  - exists ns, cs, i. eexists. by split_and!.
Qed.

Lemma tie_chain_merged_witness :
  ∃ notes chords i note,
    parse_notes_and_chords tied_stream 24 = Ok (notes, chords)
    ∧ notes !! i = Some note
    ∧ Note.pitch note = 60
    ∧ Note.time note = 0
    ∧ Note.duration note = 24 + 12 + 48
    ∧ ∀ j n, notes !! j = Some n → Note.pitch n = 60 → j = i.
Proof.
  apply (tie_chain_merged tied_stream 24 60
           tied_first [tied_second] tied_third).
  - reflexivity.
  - reflexivity.
  - repeat constructor.
  - reflexivity.
Defined.

(** C10.  The note a tie chain is merged into has the time, the pitch
    and the velocity of the first fragment of the chain, and for its
    duration the sum of the quantized durations of all the fragments.
    The later fragments, whatever their velocities and offsets, give it
    their durations and nothing else: two streams whose chains at [p]
    start with the same fragment give notes at [p] of the same time,
    pitch and velocity, each with the summed duration of its own
    chain. *)
Theorem tie_chain_first_fragment (resolution p : Z)
    (first : M21.GeneralNote)
    (stream : M21.Stream) (mids : list M21.GeneralNote)
    (last : M21.GeneralNote)
    (stream' : M21.Stream) (mids' : list M21.GeneralNote)
    (last' : M21.GeneralNote) :
  List.filter (is_note_at p) (M21.notesAndRests stream)
  = first :: mids ++ [last] →
  List.filter (is_note_at p) (M21.notesAndRests stream')
  = first :: mids' ++ [last'] →
  is_outgoing_tie first = true →
  Forall (λ f, is_outgoing_tie f = true) (mids ++ mids') →
  is_outgoing_tie last = false → is_outgoing_tie last' = false →
  ∃ notes chords i note notes' chords' i' note',
    parse_notes_and_chords stream resolution = Ok (notes, chords)
    ∧ parse_notes_and_chords stream' resolution = Ok (notes', chords')
    ∧ notes !! i = Some note ∧ notes' !! i' = Some note'
    ∧ (∀ j n, notes !! j = Some n → Note.pitch n = p → j = i)
    ∧ (∀ j n, notes' !! j = Some n → Note.pitch n = p → j = i')
    ∧ Note.time note
      = py_round (M21.offset first * inject_Z resolution)
    ∧ Note.pitch note = p
    ∧ Note.velocity note = py_round <$> M21.velocity first
    ∧ Note.duration note
      = total_duration resolution (first :: mids ++ [last])
    ∧ Note.time note' = Note.time note
    ∧ Note.pitch note' = Note.pitch note
    ∧ Note.velocity note' = Note.velocity note
    ∧ Note.duration note'
      = total_duration resolution (first :: mids' ++ [last']).
Proof.
  intros Hf Hf' Hfirst Hmids Hlast Hlast'.
  apply Forall_app in Hmids as [Hmids Hmids'].
  destruct (parse_notes_and_chords_chain stream resolution p
              first mids last Hf Hfirst Hmids Hlast)
    as (ns & cs & i & Hnc & Hnote & Honly).
  destruct (parse_notes_and_chords_chain stream' resolution p
              first mids' last' Hf' Hfirst Hmids' Hlast')
    as (ns' & cs' & i' & Hnc' & Hnote' & Honly').
  exists ns, cs, i. eexists. exists ns', cs', i'. eexists.
  by split_and!.
Qed.

Lemma tie_chain_first_fragment_witness :
  ∃ notes chords i note notes' chords' i' note',
    parse_notes_and_chords tied_stream 24 = Ok (notes, chords)
    ∧ parse_notes_and_chords tied_stream_louder 24 = Ok (notes', chords')
    ∧ notes !! i = Some note ∧ notes' !! i' = Some note'
    ∧ (∀ j n, notes !! j = Some n → Note.pitch n = 60 → j = i)
    ∧ (∀ j n, notes' !! j = Some n → Note.pitch n = 60 → j = i')
    ∧ Note.time note = 0
    ∧ Note.pitch note = 60
    ∧ Note.velocity note = Some 64
    ∧ Note.duration note = 24 + 12 + 48
    ∧ Note.time note' = Note.time note
    ∧ Note.pitch note' = Note.pitch note
    ∧ Note.velocity note' = Note.velocity note
    ∧ Note.duration note' = 24 + 24 + 72.
Proof.
  apply (tie_chain_first_fragment 24 60 tied_first
           tied_stream [tied_second] tied_third
           tied_stream_louder
           [note_at 1 1 (Some 127%Q) (Some M21.continue) 60]
           (note_at 2 3 None None 60)).
  - reflexivity.
  - reflexivity.
  - reflexivity.
  - repeat constructor.
  - reflexivity.
  - reflexivity.
Defined.

(** C7, as the code has it.  Every chord event that is not a grace note
    yields exactly one chord, whatever its tie: the chords returned are
    those of these events, in order, each with the time, the duration
    and the velocity of its own event; and such an event changes neither
    the notes nor the open ties. *)
Theorem chords_independent (stream : M21.Stream) (resolution : Z) :
  (∃ notes,
     parse_notes_and_chords stream resolution
     = Ok (notes, omap (chord_of resolution) (M21.notesAndRests stream)))
  ∧ ∀ st item chord,
      chord_of resolution item = Some chord →
      parse_item resolution st item
      = Ok (mk_nc_state (notes st) (chords st ++ [chord]) (ties st)).
Proof.
  split; [|intros st item chord; apply parse_item_chord].
  unfold parse_notes_and_chords.
  destruct (parse_items_wf resolution (M21.notesAndRests stream)
              (mk_nc_state [] [] ∅) ties_wf_init) as (st & Hst & _).
  rewrite Hst. cbn. exists (notes st).
  by rewrite (parse_items_chords _ _ _ _ Hst).
Qed.

Lemma chords_independent_witness :
  (∃ notes,
     parse_notes_and_chords tied_stream 24
     = Ok (notes, [Chord.mk 24 [64; 67] 24 None]))
  ∧ parse_item 24 (mk_nc_state [] [] {[ 60 := 0%nat ]}) tied_chord
    = Ok (mk_nc_state [] [Chord.mk 24 [64; 67] 24 None]
            {[ 60 := 0%nat ]}).
Proof.
  destruct (chords_independent tied_stream 24) as [Hall Hone].
  split; [exact Hall|].
  exact (Hone (mk_nc_state [] [] {[ 60 := 0%nat ]}) tied_chord
           (Chord.mk 24 [64; 67] 24 None) eq_refl).
Defined.

(** C7 as stated fails on a chord that is a grace note: it is a chord
    event of the stream, and no chord comes out. *)
Lemma grace_chord_dropped :
  M21.isChord grace_chord = true
  ∧ parse_notes_and_chords (stream_of [] [] [] [0]%Q [grace_chord]) 24
    = Ok ([], []).
Proof. split; reflexivity. Qed.

(** C5, as the code has it.  Each of [parse_tempos],
    [parse_key_signatures] and [parse_time_signatures] returns a list
    sorted by time and free of duplicate records, under every iteration
    order of the set; records that differ and share a time both stay,
    so the order is strict only when no two records of the list share a
    time, and then the list is the same under every iteration order. *)
Theorem annotations_sorted (stream : M21.Stream) (resolution : Z) :
  time_sorted_set Tempo.time
    (λ sets, parse_tempos (sets := sets) stream resolution)
  ∧ time_sorted_set KeySignature.time
      (λ sets, parse_key_signatures (sets := sets) stream resolution)
  ∧ time_sorted_set TimeSignature.time
      (λ sets, parse_time_signatures (sets := sets) stream resolution).
Proof.
  unfold time_sorted_set, parse_tempos, parse_key_signatures,
    parse_time_signatures.
  split_and!.
  - intros sets. apply sorted_set_sorted.
  - intros S1 S2. apply sorted_set_strict.
  - intros sets. apply sorted_set_sorted.
  - intros S1 S2. apply sorted_set_strict.
  - intros sets. apply sorted_set_sorted.
  - intros S1 S2. apply sorted_set_strict.
Qed.

Lemma annotations_sorted_witness :
  strictly_sorted_by_time KeySignature.time
    (parse_key_signatures (sets := insertion_order) modulating_stream 24)
  ∧ parse_key_signatures (sets := reverse_insertion_order) modulating_stream 24
    = parse_key_signatures (sets := insertion_order) modulating_stream 24.
Proof.
  destruct (annotations_sorted modulating_stream 24) as (_ & [_ Hks] & _).
  apply (Hks insertion_order reverse_insertion_order).
  intros x y Hx Hy Ht.
  apply list_elem_of_In in Hx, Hy. vm_compute in Hx, Hy.
  destruct Hx as [<-|[<-|[]]], Hy as [<-|[<-|[]]];
    first [reflexivity | discriminate Ht].
Defined.

(** C5 as stated fails where two staves give different key signatures at
    the same offset: both records stay, at the same time. *)
Lemma key_signatures_share_a_time :
  ¬ strictly_sorted_by_time KeySignature.time
      (parse_key_signatures (sets := insertion_order) transposing_stream 24).
Proof.
  intros Hs. vm_compute in Hs.
  apply StronglySorted_inv in Hs as [_ Hlt].
  apply Forall_inv in Hlt. discriminate Hlt.
Qed.

(** Among records of equal time the order is that of the set. *)
Lemma key_signatures_follow_the_set :
  parse_key_signatures (sets := reverse_insertion_order) transposing_stream 24
  ≠ parse_key_signatures (sets := insertion_order) transposing_stream 24.
Proof. vm_compute. discriminate. Qed.

(** C2, as the code has it.  A score without time signature converts, at
    any resolution but 0: music21 answers [getTimeSignatures] with a 4/4
    at offset 0, which becomes the one time signature of the document.
    [parse_beats] has no default of its own: on an empty list of time
    signatures and a stream with a measure it raises [IndexError]. *)
Theorem default_time_signature :
  (∀ (sets : PySet) (score : M21.Score) (resolution : Z),
     M21.timeSignatures (M21.score_stream score) = [] →
     resolution ≠ 0 →
     ∃ music, from_music21_score score resolution = Ok music
       ∧ Music.time_signatures music = [TimeSignature.mk 0 4 4])
  ∧ (∀ (stream : M21.Stream) (resolution : Z),
       M21.measureOffsetMap stream ≠ [] →
       parse_beats stream [] resolution = Raise IndexError).
Proof.
  split; [|apply parse_beats_nil].
  intros sets score resolution Hts Hr.
  destruct (score_tracks_returns (M21.parts score) []) as [tracks Htracks].
  assert (parse_time_signatures (M21.score_stream score) resolution
          = [TimeSignature.mk 0 4 4]) as Hsig.
  { unfold parse_time_signatures, M21.getTimeSignatures. rewrite Hts.
    cbn. rewrite set_iter_singleton. cbn.
    by replace (0 * resolution) with 0 by lia. }
  destruct (parse_beats_returns (M21.score_stream score)
              [TimeSignature.mk 0 4 4] resolution) as [beats Hbeats];
    [done|done| |].
  { repeat constructor; done. }
  rewrite <-Hsig in Hbeats.
  rewrite (from_music21_score_Ok score resolution tracks beats) by done.
  eexists; split; [done|]. by cbn.
Qed.

Lemma default_time_signature_witness :
  (∃ music,
     from_music21_score (sets := insertion_order) unmetered_score 24 = Ok music
     ∧ Music.time_signatures music = [TimeSignature.mk 0 4 4])
  ∧ parse_beats two_measures [] 24 = Raise IndexError.
Proof.
  destruct default_time_signature as [Hscore Hbeats].
  split.
  - apply Hscore; [reflexivity|discriminate].
  - apply Hbeats. discriminate.
Defined.

(** C2 as stated fails for [parse_beats] on a stream with one measure and
    an empty list of time signatures. *)
Lemma parse_beats_without_time_signature :
  parse_beats (M21.score_stream unmetered_score) [] 24 = Raise IndexError.
Proof. reflexivity. Qed.

(** At resolution 0 the beats have no spacing, and [np.arange] raises. *)
Lemma from_music21_score_resolution_0 :
  from_music21_score (sets := insertion_order) unmetered_score 0
  = Raise ZeroDivisionError.
Proof. reflexivity. Qed.

(** The branch of [from_music21_score] for a part without partition, as
    the code has it: such a part without note or rest events gives no
    track to the score, which converts as it does without that part;
    converted alone by [from_music21_part] it gives one track, without
    notes or chords. *)
Lemma unpartitioned_empty_part (sets : PySet) (part : M21.Part)
    (resolution : Z) :
  M21.notesAndRests (M21.part_stream part) = [] →
  truthy (M21.partitionByInstrument part) = false →
  (∀ stream pre post,
     from_music21_score (M21.mkScore stream (pre ++ part :: post))
       resolution
     = from_music21_score (M21.mkScore stream (pre ++ post)) resolution)
  ∧ ∃ track, from_music21_part part resolution = Ok (inl track)
      ∧ Track.notes track = [] ∧ Track.chords track = [].
Proof.
  intros Hempty Hparts. split.
  - intros stream pre post. unfold from_music21_score.
    cbn [M21.parts M21.score_stream].
    by rewrite score_tracks_skip.
  - unfold from_music21_part. rewrite Hparts. cbn [negb].
    unfold parse_track, parse_notes_and_chords. rewrite Hempty. cbn.
    eexists. by split_and!.
Qed.

(** C6, on the code.  A part without note or rest events that
    [partitionByInstrument] answers with a sub-part, for the instrument
    it holds, keeps a track in the score, an empty one: the loop of
    [from_music21_score] tests the events of a part only in the branch
    without partition, where the same part is dropped.  Converted alone
    by [from_music21_part], the part gives an empty track either way. *)
Theorem empty_partitioned_part_kept :
  M21.notesAndRests (M21.part_stream silent_partitioned_part) = []
  ∧ (∃ music,
       from_music21_score (sets := insertion_order)
         (M21.mkScore two_measures [silent_partitioned_part]) 24
       = Ok music
       ∧ Music.tracks music = [Track.mk 0 false None [] []])
  ∧ (∃ music,
       from_music21_score (sets := insertion_order)
         (M21.mkScore two_measures [silent_part]) 24
       = Ok music
       ∧ Music.tracks music = [])
  ∧ from_music21_part silent_partitioned_part 24
    = Ok (inr [Track.mk 0 false None [] []])
  ∧ from_music21_part silent_part 24
    = Ok (inl (Track.mk 0 false None [] [])).
Proof.
  split_and!; try reflexivity; eexists; split; reflexivity.
Qed.

(** C3, on the code.  Converting at resolution 48 a score with a tempo
    change and a key signature at offset 2 and notes at offsets 1 and 2:
    the key signature and the beats are in ticks of resolution 48, the
    tempos and the notes in ticks of the default resolution 24, which is
    also the resolution the document declares. *)
Theorem from_music21_score_resolutions :
  ∃ music,
    from_music21_score (sets := insertion_order) mixed_score 48 = Ok music
    ∧ Music.resolution music = 24
    ∧ Tempo.time <$> Music.tempos music = [0; 48]
    ∧ KeySignature.time <$> Music.key_signatures music = [96]
    ∧ Beat.time <$> Music.beats music
      = [0; 48; 96; 144; 192; 240; 288; 336]
    ∧ (λ track, (λ note, (Note.time note, Note.duration note))
                <$> Track.notes track) <$> Music.tracks music
      = [[(24, 24); (48, 24)]].
Proof. eexists. split; [vm_compute; reflexivity|]. by split_and!. Qed.

(** * Further properties *)

(** ** Quantization *)

Lemma py_round_bounds x : Qfloor x ≤ py_round x ≤ Qfloor x + 1.
Proof. unfold py_round. destruct (_ ?= _)%Q; [destruct (Z.even _)|..]; lia. Qed.

Lemma py_round_mono x y : (x <= y)%Q → py_round x ≤ py_round y.
Proof.
  intros Hxy.
  pose proof (Qfloor_resp_le x y Hxy) as Hf.
  destruct (decide (Qfloor x = Qfloor y)) as [Heq|Hne].
  - unfold py_round. rewrite <-Heq.
    destruct (x - inject_Z (Qfloor x) ?= 1 # 2)%Q eqn:Hx;
      destruct (y - inject_Z (Qfloor x) ?= 1 # 2)%Q eqn:Hy;
      try (destruct (Z.even (Qfloor x)); lia); try lia; exfalso.
    + apply Qeq_alt in Hx. apply Qlt_alt in Hy. lra.
    + apply Qgt_alt in Hx. apply Qeq_alt in Hy. lra.
    + apply Qgt_alt in Hx. apply Qlt_alt in Hy. lra.
  - pose proof (py_round_bounds x). pose proof (py_round_bounds y). lia.
Qed.

(** X1.  Quantization keeps the order of time: at a resolution that is
    not negative, a later offset never gets an earlier tick. *)
Theorem quantize_monotone (resolution : Z) (x y : Q) :
  0 ≤ resolution → (x <= y)%Q →
  quantize x resolution ≤ quantize y resolution.
Proof.
  intros Hr Hxy. unfold quantize. apply py_round_mono.
  apply Qmult_le_compat_r; [done|].
  change 0%Q with (inject_Z 0). by rewrite <-Zle_Qle.
Qed.

Lemma quantize_monotone_witness : quantize (1 # 3) 24 ≤ quantize (3 # 8) 24.
Proof. apply quantize_monotone; [lia|]. by vm_compute. Defined.

(** X2.  Quantization is exact on whole quarter notes: the offset of [n]
    quarters is tick [n * resolution], as long as [n] and that product
    are integers a float holds exactly (at most 2^53 in absolute
    value). *)
Theorem quantize_whole_quarters (resolution n : Z) :
  Z.abs n ≤ 2 ^ 53 → Z.abs (n * resolution) ≤ 2 ^ 53 →
  quantize (inject_Z n) resolution = n * resolution.
Proof.
  intros _ _. unfold quantize.
  rewrite <-(py_round_inject_Z (n * resolution)).
  reflexivity.
Qed.

Lemma quantize_whole_quarters_witness :
  quantize (inject_Z 3) 24 = 3 * 24.
Proof. apply quantize_whole_quarters; by vm_compute. Defined.

(** ** Metadata and annotations *)

Lemma foldl_copyright (items : list (string * string)) (acc : option string) :
  foldl (λ acc (item : string * string),
           if decide (item.1 = "copyright") then Some item.2 else acc)
        acc items
  = match last (snd <$> List.filter
                          (λ item : string * string,
                             bool_decide (item.1 = "copyright")) items) with
    | Some value => Some value
    | None => acc
    end.
Proof.
  revert acc; induction items as [|item items IH]; intros acc; [done|].
  cbn [foldl List.filter]. rewrite IH.
  destruct (decide (item.1 = "copyright")) as [Hk|Hk].
  - rewrite bool_decide_eq_true_2 by done. cbn [fmap list_fmap].
    rewrite last_cons. by destruct (last _).
  - by rewrite bool_decide_eq_false_2.
Qed.

(** X3.  [parse_metadata] gives nothing for a stream without metadata;
    otherwise the title, the names of all contributors in order, and for
    the copyright the value of the last item of key "copyright", none
    when there is no such item. *)
Theorem parse_metadata_spec (stream : M21.Stream) :
  parse_metadata stream
  = (λ md, Metadata.mk (M21.title md) (concat (M21.contributors md))
             (last_copyright md))
    <$> M21.metadata stream.
Proof.
  unfold parse_metadata, last_copyright.
  destruct (M21.metadata stream) as [md|]; [|done]. cbn.
  rewrite foldl_copyright. by destruct (last _).
Qed.

(** X4.  The three extractions neither lose nor invent a record: the
    records returned are exactly those built from the boundaries, the
    key signatures and the time signatures of the stream, whatever the
    iteration order of the set. *)
Theorem annotations_exact (sets : PySet) (stream : M21.Stream)
    (resolution : Z) :
  (∀ tempo,
     tempo ∈ parse_tempos stream resolution
     ↔ ∃ start end_ qpm,
         (start, end_, qpm) ∈ M21.metronomeMarkBoundaries stream
         ∧ tempo = Tempo.mk (quantize start resolution) qpm)
  ∧ (∀ ks,
       ks ∈ parse_key_signatures stream resolution
       ↔ ∃ item,
           item ∈ M21.keySignatures stream
           ∧ ks = KeySignature.mk
                    (quantize (M21.ks_offset item) resolution)
                    (fst <$> M21.key item) (snd <$> M21.key item)
                    (M21.sharps item))
  ∧ (∀ ts,
       ts ∈ parse_time_signatures stream resolution
       ↔ ∃ item,
           item ∈ M21.getTimeSignatures stream
           ∧ ts = TimeSignature.mk
                    (quantize (M21.ts_offset item) resolution)
                    (M21.numerator item) (M21.denominator item)).
Proof.
  unfold parse_tempos, parse_key_signatures, parse_time_signatures.
  split_and!.
  - intros tempo.
    rewrite (proj2 (proj2 (sorted_set_spec Tempo.time _ sets))).
    rewrite list_elem_of_fmap. split.
    + intros ([[start end_] qpm] & -> & Hin). eauto.
    + intros (start & end_ & qpm & Hin & ->).
      by exists (start, end_, qpm).
  - intros ks.
    rewrite (proj2 (proj2 (sorted_set_spec KeySignature.time _ sets))).
    rewrite list_elem_of_fmap. split.
    + intros (item & -> & Hin). exists item. split; [done|].
      by destruct (M21.key item) as [[pitchClass mode]|].
    + intros (item & Hin & ->). exists item. split; [|done].
      by destruct (M21.key item) as [[pitchClass mode]|].
  - intros ts.
    rewrite (proj2 (proj2 (sorted_set_spec TimeSignature.time _ sets))).
    rewrite list_elem_of_fmap. split.
    + intros (item & -> & Hin). eauto.
    + intros (item & Hin & ->). eauto.
Qed.

(** ** The beat grid, further *)

(** More fuel changes nothing once there is enough. *)
Lemma parse_beats_loop_more_fuel downbeats time_signatures resolution :
  ∀ fuel fuel' i j beats,
    fuelled (parse_beats_loop fuel downbeats time_signatures resolution
               i j beats) →
    (fuel ≤ fuel')%nat →
    parse_beats_loop fuel' downbeats time_signatures resolution i j beats
    = parse_beats_loop fuel downbeats time_signatures resolution i j beats.
Proof.
  induction fuel as [|fuel IH]; intros fuel' i j beats Hfuel Hle;
    [done|].
  destruct fuel' as [|fuel']; [lia|].
  cbn [parse_beats_loop] in *.
  case_bool_decide; [|done].
  destruct (use_next downbeats time_signatures i j) as [[|]|e]; cbn in *;
    [| |done].
  - apply IH; [done|lia].
  - destruct (measure_beats _ _ _ _ _ _) as [beats'|e]; cbn in *; [|done].
    apply IH; [done|lia].
Qed.

(** X5.  The [while] loop of [parse_beats] ends on every input, within as
    many turns as there are measures and time signatures together, plus
    the last test: that many turns of fuel give the result, and more
    fuel gives the same. *)
Theorem parse_beats_terminates (stream : M21.Stream)
    (time_signatures : list TimeSignature) (resolution : Z) (fuel : nat) :
  (length (M21.measureOffsetMap stream) + length time_signatures
   < fuel)%nat →
  parse_beats_loop fuel (downbeats_of stream resolution) time_signatures
    resolution 0 0 []
  = parse_beats stream time_signatures resolution
  ∧ parse_beats stream time_signatures resolution ≠ Raise OutOfFuel.
Proof.
  intros Hfuel. split; [|apply parse_beats_fuelled].
  unfold parse_beats. apply parse_beats_loop_more_fuel.
  - apply parse_beats_loop_fuel. lia.
  - unfold downbeats_of.
    rewrite (Permutation_length (py_sorted_Permutation _ _)), length_fmap.
    lia.
Qed.

Lemma parse_beats_terminates_witness :
  parse_beats_loop 100 (downbeats_of three_measures 24)
    [four_four; three_four_at_96] 24 0 0 []
  = parse_beats three_measures [four_four; three_four_at_96] 24
  ∧ parse_beats three_measures [four_four; three_four_at_96] 24
    ≠ Raise OutOfFuel.
Proof. apply parse_beats_terminates. cbn. lia. Defined.

Lemma append_beats_error numerator times :
  ∀ j beats e,
    append_beats numerator j times beats = Raise e →
    e = ZeroDivisionError.
Proof.
  induction times as [|time times IH]; intros j beats e; cbn; [done|].
  unfold py_mod. destruct (numerator =? 0); cbn; [congruence|].
  destruct (_ =? 0); apply IH.
Qed.

Lemma measure_beats_error downbeats time_signatures resolution i j beats e :
  (i < length time_signatures)%nat → (j < length downbeats)%nat →
  measure_beats downbeats time_signatures resolution i j beats = Raise e →
  e = ZeroDivisionError.
Proof.
  intros Hi Hj.
  destruct (lookup_lt_is_Some_2 downbeats j Hj) as [d Hd].
  destruct (lookup_lt_is_Some_2 time_signatures i Hi) as [ts Hts].
  unfold measure_beats.
  rewrite (getitem_Some _ _ _ Hts), (getitem_Some _ _ _ Hd). cbn.
  unfold py_truediv. destruct (Qeq_bool _ 0); cbn; [congruence|].
  case_bool_decide as Hlast.
  - destruct (lookup_lt_is_Some_2 downbeats (S j)) as [d' Hd']; [lia|].
    rewrite (getitem_Some _ _ _ Hd'). cbn.
    unfold np_arange. destruct (Qeq_bool _ 0); cbn; [congruence|].
    apply append_beats_error.
  - cbn. unfold np_arange. destruct (Qeq_bool _ 0); cbn; [congruence|].
    apply append_beats_error.
Qed.

Lemma parse_beats_loop_error downbeats time_signatures resolution :
  ∀ fuel i j beats e,
    (i < length time_signatures)%nat →
    parse_beats_loop fuel downbeats time_signatures resolution i j beats
    = Raise e →
    e = ZeroDivisionError ∨ e = OutOfFuel.
Proof.
  induction fuel as [|fuel IH]; intros i j beats e Hi; cbn [parse_beats_loop].
  { intros [= <-]. by right. }
  case_bool_decide as Hj; [|done].
  destruct (use_next_returns downbeats time_signatures i j Hi Hj)
    as (next & -> & Hnext).
  cbn. destruct next.
  - apply IH. by apply Hnext.
  - destruct (measure_beats _ _ _ _ _ _) as [beats'|e'] eqn:Hm; cbn.
    + by apply IH.
    + intros [= <-]. left. by eapply measure_beats_error.
Qed.

Lemma parse_beats_returns_or_divides stream time_signatures resolution :
  time_signatures ≠ [] →
  (∃ beats, parse_beats stream time_signatures resolution = Ok beats)
  ∨ parse_beats stream time_signatures resolution
    = Raise ZeroDivisionError.
Proof.
  intros Hne.
  pose proof (parse_beats_fuelled stream time_signatures resolution)
    as Hfuel.
  destruct (parse_beats stream time_signatures resolution)
    as [beats|e] eqn:Hbeats; [eauto|right].
  unfold parse_beats in *.
  assert (0 < length time_signatures)%nat as Hlen
    by (destruct time_signatures; [done|cbn; lia]).
  destruct (parse_beats_loop_error _ _ _ _ _ _ _ _ Hlen Hbeats)
    as [->| ->]; [done|].
  by destruct Hfuel.
Qed.

(** X6.  Given at least one time signature, [parse_beats] returns or
    raises [ZeroDivisionError], nothing else; and a stream without
    measure has no beat, with or without time signatures. *)
Theorem parse_beats_errors (stream : M21.Stream)
    (time_signatures : list TimeSignature) (resolution : Z) :
  (time_signatures ≠ [] →
   (∃ beats, parse_beats stream time_signatures resolution = Ok beats)
   ∨ parse_beats stream time_signatures resolution
     = Raise ZeroDivisionError)
  ∧ (M21.measureOffsetMap stream = [] →
     parse_beats stream time_signatures resolution = Ok []).
Proof.
  split; [apply parse_beats_returns_or_divides|].
  intros Hnil. unfold parse_beats, downbeats_of. by rewrite Hnil.
Qed.

Lemma parse_beats_errors_witness :
  ((∃ beats, parse_beats two_measures [zero_denominator] 24 = Ok beats)
   ∨ parse_beats two_measures [zero_denominator] 24
     = Raise ZeroDivisionError)
  ∧ parse_beats (stream_of [] [] [] [] []) [four_four] 24 = Ok [].
Proof.
  destruct (parse_beats_errors two_measures [zero_denominator] 24)
    as [Herr _].
  destruct (parse_beats_errors (stream_of [] [] [] [] []) [four_four] 24)
    as [_ Hnone].
  split.
  - apply Herr. discriminate.
  - apply Hnone. reflexivity.
Defined.

(** X7.  [parse_beats] returns whenever the resolution is not 0, there
    is a time signature, and no time signature has a numerator or a
    denominator of 0. *)
Theorem parse_beats_total (stream : M21.Stream)
    (time_signatures : list TimeSignature) (resolution : Z) :
  resolution ≠ 0 → time_signatures ≠ [] →
  Forall (λ ts, TimeSignature.numerator ts ≠ 0
                ∧ TimeSignature.denominator ts ≠ 0) time_signatures →
  ∃ beats, parse_beats stream time_signatures resolution = Ok beats.
Proof. apply parse_beats_returns. Qed.

Lemma parse_beats_total_witness :
  ∃ beats,
    parse_beats three_measures [four_four; three_four_at_96] 24 = Ok beats.
Proof.
  apply parse_beats_total; [discriminate|discriminate|].
  repeat constructor; discriminate.
Defined.

(** With the cursor past the first time signature, that one is out of
    the loop. *)
Lemma parse_beats_loop_shift downbeats ts time_signatures resolution :
  ∀ fuel i j beats,
    parse_beats_loop fuel downbeats (ts :: time_signatures) resolution
      (S i) j beats
    = parse_beats_loop fuel downbeats time_signatures resolution i j beats.
Proof.
  induction fuel as [|fuel IH]; intros i j beats; [done|].
  cbn [parse_beats_loop].
  case_bool_decide; [|done].
  assert (use_next downbeats (ts :: time_signatures) (S i) j
          = use_next downbeats time_signatures i j) as ->.
  { unfold use_next. cbn [length].
    rewrite (bool_decide_ext
               (Z.of_nat (S i) < Z.of_nat (S (length time_signatures)) - 1)
               (Z.of_nat i < Z.of_nat (length time_signatures) - 1))
      by lia.
    done. }
  destruct (use_next downbeats time_signatures i j) as [[|]|e]; cbn;
    [apply IH| |done].
  assert (measure_beats downbeats (ts :: time_signatures) resolution
            (S i) j beats
          = measure_beats downbeats time_signatures resolution i j beats)
    as -> by done.
  destruct (measure_beats _ _ _ _ _ _); cbn; [apply IH|done].
Qed.

(** X8.  With two time signatures or more, the first is checked against
    its own time: as soon as the first measure starts at or after it,
    the cursor moves on, and the beats are those the list without its
    first time signature gives. *)
Theorem first_time_signature_skipped (stream : M21.Stream)
    (resolution : Z) (first second : TimeSignature)
    (time_signatures : list TimeSignature)
    (downbeat : Z) (downbeats : list Z) :
  downbeats_of stream resolution = downbeat :: downbeats →
  TimeSignature.time first ≤ downbeat →
  parse_beats stream (first :: second :: time_signatures) resolution
  = parse_beats stream (second :: time_signatures) resolution.
Proof.
  intros Hd Hfirst. unfold parse_beats. rewrite Hd.
  cbn [parse_beats_loop length].
  rewrite bool_decide_eq_true_2 by lia.
  rewrite (use_next_compares_current _ _ 0 0 downbeat first)
    by (done || cbn; lia).
  replace (downbeat >=? TimeSignature.time first) with true
    by (symmetry; apply Z.geb_le; lia).
  cbn [mbind result_bind].
  rewrite parse_beats_loop_shift.
  by replace (S (length downbeats) + S (S (length time_signatures)))%nat
    with (S (S (length downbeats) + S (length time_signatures))) by lia.
Qed.

Lemma first_time_signature_skipped_witness :
  parse_beats three_measures [four_four; three_four_at_96] 24
  = parse_beats three_measures [three_four_at_96] 24.
Proof.
  apply (first_time_signature_skipped three_measures 24
           four_four three_four_at_96 [] 0 [96; 168]).
  - reflexivity.
  - cbn. lia.
Defined.

Lemma py_round_proper x y : (x == y)%Q → py_round x = py_round y.
Proof.
  intros Hxy. unfold py_round. rewrite (Qfloor_comp x y Hxy).
  replace (x - inject_Z (Qfloor y) ?= 1 # 2)%Q
    with (y - inject_Z (Qfloor y) ?= 1 # 2)%Q; [done|].
  apply Qcompare_comp; [|done]. by rewrite Hxy.
Qed.

Lemma append_beats_spec numerator times :
  numerator ≠ 0 →
  ∀ j beats,
    append_beats numerator j times beats
    = Ok (beats ++ beats_from numerator j times).
Proof.
  intros Hn. induction times as [|time times IH]; intros j beats; cbn.
  - by rewrite app_nil_r.
  - unfold py_mod. destruct (Z.eqb_spec numerator 0); [done|]. cbn.
    destruct (_ =? 0); rewrite IH, <-app_assoc; done.
Qed.


(** What [measure_beats] appends: the beats, counted from 0, of
    [np.arange] from the downbeat to the next one or, in the last
    measure, to the end of a measure of full length. *)
Lemma measure_beats_spec downbeats time_signatures resolution i j beats
    d ts :
  downbeats !! j = Some d → time_signatures !! i = Some ts →
  resolution ≠ 0 → TimeSignature.numerator ts ≠ 0 →
  TimeSignature.denominator ts ≠ 0 →
  measure_beats downbeats time_signatures resolution i j beats
  = Ok (beats
        ++ beats_from (TimeSignature.numerator ts) 0
             ((λ k : nat,
                 inject_Z d
                 + inject_Z (Z.of_nat k) * beat_resolution_of resolution ts)%Q
              <$> seq 0
                    (Z.to_nat
                       (Qceiling
                          ((from_option inject_Z
                              (inject_Z d
                               + beat_resolution_of resolution ts
                                 * inject_Z (TimeSignature.numerator ts))
                              (downbeats !! S j)
                            - inject_Z d)
                           / beat_resolution_of resolution ts))))%Q).
Proof.
  intros Hd Hts Hr Hnum Hden. unfold measure_beats.
  rewrite (getitem_Some _ _ _ Hts), (getitem_Some _ _ _ Hd). cbn.
  unfold py_truediv.
  rewrite (Qeq_bool_div_nonzero (inject_Z (TimeSignature.denominator ts)) 4)
    by (by apply inject_Z_nonzero).
  cbn. fold (beat_resolution_of resolution ts).
  assert (Qeq_bool (beat_resolution_of resolution ts) 0 = false) as Hbr.
  { apply Qeq_bool_div_nonzero; [by apply inject_Z_nonzero|].
    apply Qeq_bool_neq, Qeq_bool_div_nonzero; by apply inject_Z_nonzero. }
  case_bool_decide as Hlast.
  - destruct (lookup_lt_is_Some_2 downbeats (S j)) as [d' Hd']; [lia|].
    rewrite (getitem_Some _ _ _ Hd'), Hd'. cbn.
    unfold np_arange. rewrite Hbr. cbn.
    by apply append_beats_spec.
  - rewrite (lookup_ge_None_2 downbeats (S j))
      by (apply lookup_lt_Some in Hd; lia).
    cbn. unfold np_arange. rewrite Hbr. cbn.
    by apply append_beats_spec.
Qed.





Lemma beat_resolution_of_pos resolution ts :
  0 < resolution → 0 < TimeSignature.denominator ts →
  (0 < beat_resolution_of resolution ts)%Q.
Proof.
  intros Hr Hden. unfold beat_resolution_of.
  assert (0 < inject_Z resolution)%Q as Hr'
    by (change 0%Q with (inject_Z 0); by rewrite <-Zlt_Qlt).
  assert (0 < inject_Z (TimeSignature.denominator ts))%Q as Hden'
    by (change 0%Q with (inject_Z 0); by rewrite <-Zlt_Qlt).
  apply Qlt_shift_div_l.
  - apply Qlt_shift_div_l; [done|]. by rewrite Qmult_0_l.
  - by rewrite Qmult_0_l.
Qed.

Lemma Qceiling_pos q : (0 < q)%Q → 0 < Qceiling q.
Proof.
  intros Hq. pose proof (Qle_ceiling q) as Hle.
  rewrite Zlt_Qlt. change (inject_Z 0) with 0%Q. lra.
Qed.

(** A measure that ends after it starts opens with a downbeat at its
    start. *)
Lemma measure_beats_downbeat downbeats time_signatures resolution i j beats
    d ts :
  downbeats !! j = Some d → time_signatures !! i = Some ts →
  0 < resolution → 0 < TimeSignature.numerator ts →
  0 < TimeSignature.denominator ts →
  (∀ d', downbeats !! S j = Some d' → d < d') →
  ∃ new,
    measure_beats downbeats time_signatures resolution i j beats
    = Ok (beats ++ Beat.mk d true :: new).
Proof.
  intros Hd Hts Hr Hnum Hden Hnext.
  rewrite (measure_beats_spec _ _ _ _ _ _ d ts) by (done || lia).
  pose proof (beat_resolution_of_pos resolution ts Hr Hden) as Hbr.
  set (br := beat_resolution_of resolution ts) in *.
  assert (0 < Qceiling
                ((from_option inject_Z
                    (inject_Z d
                     + br * inject_Z (TimeSignature.numerator ts))
                    (downbeats !! S j) - inject_Z d) / br)%Q) as Hn.
  { apply Qceiling_pos, Qlt_shift_div_l; [done|]. rewrite Qmult_0_l.
    destruct (downbeats !! S j) as [d'|]; cbn [from_option].
    - specialize (Hnext d' eq_refl). rewrite Zlt_Qlt in Hnext. lra.
    - assert (0 < br * inject_Z (TimeSignature.numerator ts))%Q.
      { apply Qmult_lt_0_compat; [done|].
        change 0%Q with (inject_Z 0). by rewrite <-Zlt_Qlt. }
      lra. }
  destruct (Z.to_nat _) as [|n] eqn:Hceil; [lia|].
  cbn [seq fmap list_fmap beats_from].
  assert (py_round (inject_Z d + inject_Z (Z.of_nat 0) * br) = d) as ->.
  { rewrite <-(py_round_inject_Z d) at 2. apply py_round_proper.
    change (inject_Z (Z.of_nat 0)) with 0%Q. ring. }
  change (Z.of_nat 0) with 0. rewrite Z.mod_0_l by lia.
  change (0 =? 0) with true. by eexists.
Qed.

(** Along the loop the beats only grow, and every measure that ends
    after it starts leaves a downbeat at its start. *)
Lemma parse_beats_loop_downbeats downbeats time_signatures resolution :
  0 < resolution →
  Forall (λ ts, 0 < TimeSignature.numerator ts
                ∧ 0 < TimeSignature.denominator ts) time_signatures →
  ∀ fuel i j beats out,
    (i < length time_signatures)%nat →
    parse_beats_loop fuel downbeats time_signatures resolution i j beats
    = Ok out →
    (∃ rest, out = beats ++ rest)
    ∧ ∀ k d, (j ≤ k)%nat → downbeats !! k = Some d →
        (∀ d', downbeats !! S k = Some d' → d < d') →
        Beat.mk d true ∈ out.
Proof.
  intros Hr Hsigs.
  induction fuel as [|fuel IH]; intros i j beats out Hi; [done|].
  cbn [parse_beats_loop].
  case_bool_decide as Hj.
  - destruct (use_next_returns downbeats time_signatures i j Hi Hj)
      as (next & -> & Hnext).
    cbn [mbind result_bind]. destruct next.
    { apply IH. by apply Hnext. }
    destruct (lookup_lt_is_Some_2 downbeats j Hj) as [dj Hdj].
    destruct (lookup_lt_is_Some_2 time_signatures i Hi) as [ts Hts].
    destruct (Forall_lookup_1 _ _ _ _ Hsigs Hts) as [Hnum Hden].
    rewrite (measure_beats_spec _ _ _ _ _ _ dj ts) by (done || lia).
    cbn [mbind result_bind]. intros Hout.
    destruct (IH _ _ _ _ Hi Hout) as [[rest ->] Hlater].
    split; [rewrite <-app_assoc; eauto|].
    intros k d Hk Hd Hgap.
    destruct (decide (k = j)) as [->|Hne];
      [|apply (Hlater k d); [lia|done..]].
    assert (d = dj) as -> by congruence.
    destruct (measure_beats_downbeat downbeats time_signatures resolution
                i j beats dj ts) as [new Hnew]; try done.
    rewrite (measure_beats_spec _ _ _ _ _ _ dj ts) in Hnew by (done || lia).
    injection Hnew as Hnew. rewrite Hnew.
    rewrite !elem_of_app, elem_of_cons. tauto.
  - intros [= <-]. split; [exists []; by rewrite app_nil_r|].
    intros k d Hk Hd _. apply lookup_lt_Some in Hd. lia.
Qed.

(** In a sorted list every value has a last place, before a greater
    value or at the end. *)
Lemma sorted_last_occurrence (l : list Z) (d : Z) :
  StronglySorted Z.le l → d ∈ l →
  ∃ k, l !! k = Some d ∧ ∀ d', l !! S k = Some d' → d < d'.
Proof.
  induction 1 as [|x l Hl IH Hx]; intros Hd; [by apply elem_of_nil in Hd|].
  destruct (decide (d ∈ l)) as [Hin|Hout].
  - destruct (IH Hin) as (k & Hk & Hnext). by exists (S k).
  - apply elem_of_cons in Hd as [->|]; [|done].
    exists 0%nat. split; [done|]. intros d' Hd'. cbn in Hd'.
    assert (d' ∈ l) as Hin by (by eapply list_elem_of_lookup_2).
    rewrite Forall_forall in Hx. specialize (Hx d' Hin).
    assert (d' ≠ x) by congruence. lia.
Qed.

(** X10.  Downbeats at the measure starts: when the resolution, the
    numerators and the denominators are positive and there is a time
    signature, [parse_beats] returns, and the tick of every measure
    start is the time of a beat marked as a downbeat. *)
Theorem measure_starts_are_downbeats (stream : M21.Stream)
    (time_signatures : list TimeSignature) (resolution : Z) :
  0 < resolution → time_signatures ≠ [] →
  Forall (λ ts, 0 < TimeSignature.numerator ts
                ∧ 0 < TimeSignature.denominator ts) time_signatures →
  ∃ beats,
    parse_beats stream time_signatures resolution = Ok beats
    ∧ ∀ offset, offset ∈ M21.measureOffsetMap stream →
        Beat.mk (quantize offset resolution) true ∈ beats.
Proof.
  intros Hr Hne Hsigs.
  destruct (parse_beats_returns stream time_signatures resolution)
    as [beats Hbeats]; [lia|done| |].
  { eapply Forall_impl; [done|]. cbn. lia. }
  exists beats. split; [done|]. intros offset Hoffset.
  unfold parse_beats in Hbeats.
  assert (0 < length time_signatures)%nat as Hlen
    by (destruct time_signatures; [done|cbn; lia]).
  destruct (parse_beats_loop_downbeats _ _ _ Hr Hsigs _ _ _ _ _ Hlen Hbeats)
    as [_ Hdown].
  destruct (sorted_last_occurrence (downbeats_of stream resolution)
              (quantize offset resolution)) as (k & Hk & Hnext).
  - apply (py_sorted_sorted id).
  - unfold downbeats_of. rewrite py_sorted_Permutation.
    apply list_elem_of_fmap. by exists offset.
  - apply (Hdown k); [lia|done..].
Qed.

Lemma measure_starts_are_downbeats_witness :
  ∃ beats,
    parse_beats three_measures [four_four; three_four_at_96] 24 = Ok beats
    ∧ ∀ offset, offset ∈ M21.measureOffsetMap three_measures →
        Beat.mk (quantize offset 24) true ∈ beats.
Proof.
  apply measure_starts_are_downbeats; [lia|discriminate|].
  repeat constructor.
Defined.

(** ** The note and chord extractor, further *)

Lemma sum_durations_app l l' :
  sum_durations (l ++ l') = sum_durations l + sum_durations l'.
Proof.
  unfold sum_durations. induction l as [|n l IH]; cbn; [done|].
  rewrite IH. lia.
Qed.

Lemma sum_durations_insert l i n d :
  l !! i = Some n →
  sum_durations (<[i := Note.add_duration d n]> l) = sum_durations l + d.
Proof.
  revert i; induction l as [|m l IH]; intros [|i] Hi; try done.
  - injection Hi as ->.
    change (Note.duration (Note.add_duration d n) + sum_durations l
            = Note.duration n + sum_durations l + d).
    cbn. lia.
  - change (Note.duration m
            + sum_durations (<[i := Note.add_duration d n]> l)
            = Note.duration m + sum_durations l + d).
    rewrite (IH i Hi). lia.
Qed.

Lemma is_note_event_true item :
  is_note_event item = true →
  M21.isGrace item = false ∧ ∃ p, M21.body item = M21.IsNote p.
Proof.
  unfold is_note_event, M21.isNote. destruct (M21.isGrace item); [done|].
  destruct (M21.body item); [eauto|done..].
Qed.

(** An event that is not a note leaves the notes and the ties alone. *)
Lemma parse_item_not_note r st item st' :
  is_note_event item = false → parse_item r st item = Ok st' →
  notes st' = notes st ∧ ties st' = ties st.
Proof.
  unfold is_note_event, parse_item, M21.isNote, M21.isChord.
  destruct (M21.isGrace item), (M21.body item); cbn; try done;
    by intros _ [= <-].
Qed.

Lemma parse_item_durations r st item st' :
  ties_wf st → parse_item r st item = Ok st' →
  sum_durations (notes st')
  = sum_durations (notes st)
    + (if is_note_event item
       then quantize (M21.quarterLength item) r else 0).
Proof.
  intros Hwf Hst'. destruct (is_note_event item) eqn:Hitem.
  - apply is_note_event_true in Hitem as (Hg & p & Hb).
    destruct (ties st !! p) as [i|] eqn:Hp.
    + destruct (Hwf _ _ Hp) as (n & Hn & Hpn).
      rewrite (parse_item_open p r st item i n) in Hst'; try done.
      * injection Hst' as <-. cbn. by apply sum_durations_insert.
      * unfold is_note_at. rewrite Hg, Hb. cbn. by apply bool_decide_eq_true.
    + rewrite (parse_item_new p r st item) in Hst'; try done.
      * injection Hst' as <-. cbn. rewrite sum_durations_app. cbn. lia.
      * unfold is_note_at. rewrite Hg, Hb. cbn. by apply bool_decide_eq_true.
  - destruct (parse_item_not_note r st item st' Hitem Hst') as [-> _]. lia.
Qed.

Lemma parse_items_durations r items :
  ∀ st st', ties_wf st → parse_items r items st = Ok st' →
    sum_durations (notes st')
    = sum_durations (notes st)
      + total_duration r (List.filter is_note_event items).
Proof.
  induction items as [|item items IH]; intros st st' Hwf; cbn.
  - intros [= <-]. lia.
  - destruct (parse_item_wf r st item Hwf) as (st1 & Hst1 & Hwf1).
    rewrite Hst1. cbn. intros Hst'.
    rewrite (IH _ _ Hwf1 Hst'), (parse_item_durations _ _ _ _ Hwf Hst1).
    unfold total_duration. destruct (is_note_event item); cbn; lia.
Qed.

(** X11.  Tie merging keeps the durations: the durations of the notes
    returned add up to the quantized durations of all the note events
    of the stream that are not grace notes, tied or not. *)
Theorem durations_conserved (stream : M21.Stream) (resolution : Z) :
  ∃ notes chords,
    parse_notes_and_chords stream resolution = Ok (notes, chords)
    ∧ sum_durations notes
      = total_duration resolution
          (List.filter is_note_event (M21.notesAndRests stream)).
Proof.
  unfold parse_notes_and_chords.
  destruct (parse_items_wf resolution (M21.notesAndRests stream)
              (mk_nc_state [] [] ∅) ties_wf_init) as (st & Hst & _).
  rewrite Hst. cbn. exists (notes st), (chords st). split; [done|].
  by rewrite (parse_items_durations _ _ _ _ ties_wf_init Hst).
Qed.

(** Without an outgoing tie no tie opens: every event yields its own
    note or chord. *)
Lemma parse_items_untied r items :
  Forall (λ item, is_note_event item = true →
                  is_outgoing_tie item = false) items →
  ∀ ns cs,
    parse_items r items (mk_nc_state ns cs ∅)
    = Ok (mk_nc_state (ns ++ omap (note_of r) items)
            (cs ++ omap (chord_of r) items) ∅).
Proof.
  induction 1 as [|item items Hitem _ IH]; intros ns cs; cbn.
  { by rewrite !app_nil_r. }
  unfold parse_item, note_of, chord_of, is_note_event,
    M21.isNote, M21.isChord in *.
  destruct (M21.isGrace item); [by destruct (M21.body item); cbn|].
  destruct (M21.body item) as [p|midis|]; cbn in *.
  - rewrite lookup_empty, (Hitem eq_refl). cbn.
    by rewrite IH, <-app_assoc.
  - by rewrite IH, <-app_assoc.
  - apply IH.
Qed.

(** X12.  In a stream where no note has an outgoing tie (no tie, or a
    tie that stops), every note event that is not a grace note yields a
    note of its own, with the time, pitch, duration and velocity of
    that event, in the order of the stream. *)
Theorem untied_notes (stream : M21.Stream) (resolution : Z) :
  Forall (λ item, is_note_event item = true →
                  is_outgoing_tie item = false)
         (M21.notesAndRests stream) →
  parse_notes_and_chords stream resolution
  = Ok (omap (note_of resolution) (M21.notesAndRests stream),
        omap (chord_of resolution) (M21.notesAndRests stream)).
Proof.
  intros Huntied. unfold parse_notes_and_chords.
  by rewrite (parse_items_untied _ _ Huntied).
Qed.

Lemma untied_notes_witness :
  parse_notes_and_chords untied_stream 24
  = Ok ([Note.mk 0 60 24 (Some 90); Note.mk 48 60 12 None;
         Note.mk 72 64 24 None],
        [Chord.mk 24 [64; 67] 24 None]).
Proof.
  apply (untied_notes untied_stream 24).
  repeat constructor; cbn; congruence.
Defined.

(** From an open tie at [p] through fragments that all tie on. *)
Lemma parse_items_open_unclosed p r items :
  ∀ st i n0 mids,
    ties_wf st → ties st !! p = Some i → notes st !! i = Some n0 →
    Note.pitch n0 = p → only_at p i st →
    List.filter (is_note_at p) items = mids →
    Forall (λ f, is_outgoing_tie f = true) mids →
    ∃ st', parse_items r items st = Ok st'
      ∧ notes st' !! i
        = Some (Note.add_duration (total_duration r mids) n0)
      ∧ only_at p i st'.
Proof.
  induction items as [|item items IH];
    intros st i n0 mids Hwf Ht Hn Hp Honly Hf Hmids.
  { cbn in Hf. subst mids. exists st. split_and!; [done| |done].
    rewrite Hn. f_equal. destruct n0. unfold Note.add_duration. cbn.
    f_equal. lia. }
  cbn in Hf. cbn [parse_items].
  destruct (parse_item_wf r st item Hwf) as (st1 & Hst1 & Hwf1).
  rewrite Hst1. cbn.
  assert (Hi : (i < length (notes st))%nat) by (by eapply lookup_lt_Some).
  destruct (is_note_at p item) eqn:Hitem.
  - rewrite (parse_item_open p r st item i n0) in Hst1 by done.
    injection Hst1 as <-.
    destruct mids as [|m mids]; [done|]. injection Hf as -> Hf.
    apply Forall_cons in Hmids as [Hm Hmids]. rewrite Hm in *.
    edestruct (IH _ i
      (Note.add_duration (quantize (M21.quarterLength m) r) n0)
      mids Hwf1) as (st' & Hst' & Hnote & Honly'); try done.
    + cbn. by rewrite lookup_insert_eq.
    + cbn. by rewrite list_lookup_insert_eq.
    + intros j n Hj Hpn. cbn in Hj.
      destruct (decide (j = i)) as [|Hne]; [done|].
      rewrite list_lookup_insert_ne in Hj by done. by eapply Honly.
    + exists st'. split; [done|]. split; [|done].
      by rewrite Hnote, add_duration_add.
  - pose proof (parse_item_other p r st item st1 Hitem Hwf Hst1) as Hsame.
    destruct Hsame as [Hties Hnotes].
    apply (IH st1 i n0 mids); try done.
    + congruence.
    + by apply Hnotes.
    + by eapply only_at_same.
Qed.

Lemma parse_items_chain_unclosed p r items :
  ∀ st first mids,
    ties_wf st → ties st !! p = None →
    (∀ j n, notes st !! j = Some n → Note.pitch n ≠ p) →
    List.filter (is_note_at p) items = first :: mids →
    Forall (λ f, is_outgoing_tie f = true) (first :: mids) →
    ∃ st' i, parse_items r items st = Ok st'
      ∧ notes st' !! i
        = Some (Note.mk (quantize (M21.offset first) r) p
                  (total_duration r (first :: mids))
                  (py_round <$> M21.velocity first))
      ∧ only_at p i st'.
Proof.
  induction items as [|item items IH];
    intros st first mids Hwf Ht Habs Hf Hties.
  { done. }
  cbn in Hf. cbn [parse_items].
  destruct (parse_item_wf r st item Hwf) as (st1 & Hst1 & Hwf1).
  rewrite Hst1. cbn.
  destruct (is_note_at p item) eqn:Hitem.
  - injection Hf as -> Hf.
    apply Forall_cons in Hties as [Hfirst Hmids].
    rewrite (parse_item_new p r st first) in Hst1 by done.
    injection Hst1 as <-. rewrite Hfirst in *.
    edestruct (parse_items_open_unclosed p r items _ (length (notes st))
      (Note.mk (quantize (M21.offset first) r) p
         (quantize (M21.quarterLength first) r)
         (py_round <$> M21.velocity first))
      mids Hwf1) as (st' & Hst' & Hnote & Honly); try done.
    + cbn. by rewrite lookup_insert_eq.
    + cbn. rewrite lookup_app_r by lia.
      by replace (length (notes st) - length (notes st))%nat with 0%nat
        by lia.
    + intros j n Hj Hpn. cbn in Hj.
      destruct (decide (j < length (notes st))%nat).
      * rewrite lookup_app_l in Hj by done. by destruct (Habs j n).
      * apply lookup_lt_Some in Hj. rewrite length_app in Hj.
        cbn in Hj. lia.
    + exists st', (length (notes st)). split; [done|]. split; [|done].
      by rewrite Hnote.
  - pose proof (parse_item_other p r st item st1 Hitem Hwf Hst1) as Hsame.
    destruct Hsame as [Hties' Hnotes].
    apply (IH st1 first mids); try done.
    + congruence.
    + intros j n Hj Hpn. apply (Habs j n); [|done].
      by apply Hnotes.
Qed.

(** X13.  A tie chain that the stream never closes still gives one
    note: when all the notes at a pitch tie on ([start] or [continue]),
    they are merged into a single note that has the time of the first
    and the sum of their quantized durations. *)
Theorem tie_chain_unclosed (stream : M21.Stream) (resolution p : Z)
    (first : M21.GeneralNote) (mids : list M21.GeneralNote) :
  List.filter (is_note_at p) (M21.notesAndRests stream) = first :: mids →
  Forall (λ f, is_outgoing_tie f = true) (first :: mids) →
  ∃ notes chords i,
    parse_notes_and_chords stream resolution = Ok (notes, chords)
    ∧ notes !! i
      = Some (Note.mk (quantize (M21.offset first) resolution) p
                (total_duration resolution (first :: mids))
                (py_round <$> M21.velocity first))
    ∧ ∀ j n, notes !! j = Some n → Note.pitch n = p → j = i.
Proof.
  intros Hf Hties.
  destruct (parse_items_chain_unclosed p resolution
              (M21.notesAndRests stream) (mk_nc_state [] [] ∅) first mids)
    as (st & i & Hst & Hnote & Honly); try done; try apply ties_wf_init.
  unfold parse_notes_and_chords. rewrite Hst. cbn.
  by exists (notes st), (chords st), i.
Qed.

Lemma tie_chain_unclosed_witness :
  ∃ notes chords i,
    parse_notes_and_chords unclosed_stream 24 = Ok (notes, chords)
    ∧ notes !! i = Some (Note.mk 0 60 36 (Some 64))
    ∧ ∀ j n, notes !! j = Some n → Note.pitch n = 60 → j = i.
Proof.
  apply (tie_chain_unclosed unclosed_stream 24 60 tied_first [tied_second]).
  - reflexivity.
  - repeat constructor.
Defined.

(** What a note event does to the notes and the ties does not depend on
    the chords collected so far. *)
Lemma parse_item_chords_irrelevant r item ns ts cs cs' st :
  parse_item r (mk_nc_state ns cs ts) item = Ok st →
  is_note_event item = true →
  parse_item r (mk_nc_state ns cs' ts) item
  = Ok (mk_nc_state (notes st) cs' (ties st)).
Proof.
  intros Hst Hitem. apply is_note_event_true in Hitem as (Hg & p & Hb).
  revert Hst. unfold parse_item, M21.isNote, M21.isChord.
  rewrite Hg, Hb. cbn.
  destruct (ts !! p) as [i|].
  - unfold getitem. destruct (ns !! i); cbn; [|done].
    by destruct (is_outgoing_tie item); intros [= <-].
  - by destruct (is_outgoing_tie item); intros [= <-].
Qed.

Lemma parse_items_note_events r items :
  ∀ ns ts cs cs' st,
    parse_items r items (mk_nc_state ns cs ts) = Ok st →
    parse_items r (List.filter is_note_event items) (mk_nc_state ns cs' ts)
    = Ok (mk_nc_state (notes st) cs' (ties st)).
Proof.
  induction items as [|item items IH]; intros ns ts cs cs' st; cbn.
  - by intros [= <-].
  - destruct (parse_item r (mk_nc_state ns cs ts) item) as [st1|] eqn:Hst1;
      [|done].
    cbn. intros Hst. destruct (is_note_event item) eqn:Hitem.
    + cbn [parse_items].
      rewrite (parse_item_chords_irrelevant _ _ _ _ _ cs' _ Hst1 Hitem).
      cbn. destruct st1 as [ns1 cs1 ts1]. by apply (IH _ _ cs1).
    + destruct (parse_item_not_note _ _ _ _ Hitem Hst1) as [Hns Hts].
      destruct st1 as [ns1 cs1 ts1]. cbn in Hns, Hts. subst.
      by apply (IH _ _ cs1).
Qed.

(** X14.  The notes depend on the note events alone: a stream and the
    same stream without its rests, its chords and its grace notes give
    the same notes. *)
Theorem notes_from_note_events (stream : M21.Stream) (resolution : Z) :
  ∃ notes chords,
    parse_notes_and_chords stream resolution = Ok (notes, chords)
    ∧ parse_notes_and_chords
        (with_notesAndRests
           (List.filter is_note_event (M21.notesAndRests stream)) stream)
        resolution
      = Ok (notes, []).
Proof.
  unfold parse_notes_and_chords.
  destruct (parse_items_wf resolution (M21.notesAndRests stream)
              (mk_nc_state [] [] ∅) ties_wf_init) as (st & Hst & _).
  rewrite Hst. cbn. exists (notes st), (chords st). split; [done|].
  by rewrite (parse_items_note_events _ _ _ _ _ [] _ Hst).
Qed.

(** ** Parts, scores and opuses *)

Lemma mapM_Ok {A B} (f : A → result B) (l : list A) (ys : list B) :
  mapM f l = Ok ys ↔ Forall2 (λ x y, f x = Ok y) l ys.
Proof.
  revert ys; induction l as [|x l IH]; intros ys; cbn.
  - split.
    + intros [= <-]. constructor.
    + intros Hnil. by apply Forall2_nil_inv_l in Hnil as ->.
  - split.
    + destruct (f x) as [y|e] eqn:Hx; cbn; [|done].
      destruct (mapM f l) as [ys'|e] eqn:Hl; cbn; [|done].
      intros [= <-]. constructor; [done|]. by apply IH.
    + intros Hall. apply Forall2_cons_inv_l in Hall
        as (y & ys' & Hx & Hall & ->).
      apply IH in Hall. by rewrite Hx, Hall.
Qed.

Lemma mapM_Raise {A B} (f : A → result B) (l : list A) (e : exn) :
  mapM f l = Raise e
  ↔ ∃ pre x post, l = pre ++ x :: post
      ∧ Forall (λ x, returns (f x)) pre ∧ f x = Raise e.
Proof.
  induction l as [|x l IH]; cbn.
  - split; [done|]. intros (pre & y & post & Hl & _). by destruct pre.
  - split.
    + destruct (f x) as [y|e'] eqn:Hx; cbn.
      * destruct (mapM f l) as [ys'|e'] eqn:Hl; cbn; [done|].
        intros [= ->]. destruct (proj1 IH eq_refl)
          as (pre & z & post & -> & Hpre & Hz).
        exists (x :: pre), z, post. split; [done|]. split; [|done].
        constructor; [by eexists|done].
      * intros [= ->]. by exists [], x, l.
    + intros (pre & z & post & Hl & Hpre & Hz).
      destruct pre as [|x' pre]; cbn in Hl; injection Hl as -> ->.
      * by rewrite Hz.
      * apply Forall_cons in Hpre as [[y Hy] Hpre]. rewrite Hy. cbn.
        assert (mapM f (pre ++ z :: post) = Raise e) as ->; [|done].
        apply IH. by exists pre, z, post.
Qed.

(** X15.  [from_music21_part] never raises.  Without a partition it
    returns the track of the part itself; with one, a list with the
    track of every sub-part, in the order of the partition, each parsed
    at the resolution it was given. *)
Theorem from_music21_part_spec (part : M21.Part) (resolution : Z) :
  (truthy (M21.partitionByInstrument part) = false →
   ∃ track,
     from_music21_part part resolution = Ok (inl track)
     ∧ parse_track (M21.part_stream part) resolution = Ok track)
  ∧ (truthy (M21.partitionByInstrument part) = true →
     ∃ subparts tracks,
       M21.partitionByInstrument part = Some subparts
       ∧ from_music21_part part resolution = Ok (inr tracks)
       ∧ Forall2 (λ subpart track,
                    parse_track subpart resolution = Ok track)
           subparts tracks).
Proof.
  unfold from_music21_part. split; intros Hparts; rewrite Hparts; cbn [negb].
  - destruct (parse_track_returns (M21.part_stream part) resolution)
      as (ns & cs & _ & ->).
    by eexists.
  - destruct (M21.partitionByInstrument part) as [[|sub subs]|]; try done.
    change (default [] (Some (sub :: subs))) with (sub :: subs).
    destruct (mapM_parse_track_returns resolution (sub :: subs))
      as (tracks & Htracks & _).
    rewrite Htracks. exists (sub :: subs), tracks.
    split_and!; [done..|]. by apply mapM_Ok.
Qed.

Lemma from_music21_part_spec_witness :
  (∃ track,
     from_music21_part sounding_part 48 = Ok (inl track)
     ∧ parse_track (M21.part_stream sounding_part) 48 = Ok track)
  ∧ ∃ subparts tracks,
      M21.partitionByInstrument silent_partitioned_part = Some subparts
      ∧ from_music21_part silent_partitioned_part 48 = Ok (inr tracks)
      ∧ Forall2 (λ subpart track, parse_track subpart 48 = Ok track)
          subparts tracks.
Proof.
  split.
  - apply (from_music21_part_spec sounding_part 48). reflexivity.
  - apply (from_music21_part_spec silent_partitioned_part 48). reflexivity.
Defined.

(** The tracks found so far only stand in front. *)
Lemma score_tracks_acc parts :
  ∀ tracks,
    score_tracks parts tracks
    = (λ new, tracks ++ new) <$> score_tracks parts [].
Proof.
  induction parts as [|part parts IH]; intros tracks; cbn.
  - by rewrite app_nil_r.
  - destruct (truthy (M21.partitionByInstrument part)).
    + destruct (mapM _ _) as [new|e]; cbn; [|done].
      rewrite (IH (tracks ++ new)), (IH new).
      destruct (score_tracks parts []); [|done].
      unfold fmap, result_fmap. by rewrite app_assoc.
    + destruct (length (M21.notesAndRests (M21.part_stream part)));
        cbn; [apply IH|].
      destruct (parse_track _ _) as [track|e]; cbn; [|done].
      rewrite (IH (tracks ++ [track])), (IH [track]).
      destruct (score_tracks parts []); [|done].
      unfold fmap, result_fmap. by rewrite app_assoc.
Qed.

Lemma score_tracks_app pre post :
  ∀ tracks,
    score_tracks (pre ++ post) tracks
    = score_tracks pre tracks ≫= score_tracks post.
Proof.
  induction pre as [|part pre IH]; intros tracks; cbn; [done|].
  destruct (truthy (M21.partitionByInstrument part)).
  - destruct (mapM _ _) as [new|e]; cbn; [apply IH|done].
  - destruct (length (M21.notesAndRests (M21.part_stream part)));
      cbn; [apply IH|].
    destruct (parse_track _ _) as [track|e]; cbn; [apply IH|done].
Qed.

Lemma from_music21_score_inv {sets : PySet} score resolution music :
  from_music21_score score resolution = Ok music →
  ∃ tracks beats,
    score_tracks (M21.parts score) [] = Ok tracks
    ∧ parse_beats (M21.score_stream score)
        (parse_time_signatures (M21.score_stream score) resolution)
        resolution = Ok beats
    ∧ music
      = Music.mk
          (parse_metadata (M21.score_stream score))
          DEFAULT_RESOLUTION
          (parse_tempos (M21.score_stream score) DEFAULT_RESOLUTION)
          (parse_key_signatures (M21.score_stream score) resolution)
          (parse_time_signatures (M21.score_stream score) resolution)
          beats
          tracks.
Proof.
  unfold from_music21_score.
  destruct (score_tracks (M21.parts score) []) as [tracks|e]; [|done].
  cbv zeta. unfold mbind at 1, result_bind at 1.
  destruct (parse_beats _ _ _) as [beats|e]; [|done].
  intros [= <-]. by exists tracks, beats.
Qed.

(** X16.  The tracks of a score are those of its parts, in order: the
    score whose parts are [pre ++ post] has the tracks of the score of
    parts [pre] followed by those of the score of parts [post], and
    nothing else of the document depends on the parts. *)
Theorem score_tracks_concatenate (sets : PySet) (stream : M21.Stream)
    (pre post : list M21.Part) (resolution : Z) (music : Music) :
  from_music21_score (M21.mkScore stream (pre ++ post)) resolution
  = Ok music →
  ∃ front back,
    from_music21_score (M21.mkScore stream pre) resolution = Ok front
    ∧ from_music21_score (M21.mkScore stream post) resolution = Ok back
    ∧ Music.tracks music = Music.tracks front ++ Music.tracks back
    ∧ music
      = Music.mk (Music.metadata front) (Music.resolution front)
          (Music.tempos front) (Music.key_signatures front)
          (Music.time_signatures front) (Music.beats front)
          (Music.tracks music)
    ∧ back
      = Music.mk (Music.metadata front) (Music.resolution front)
          (Music.tempos front) (Music.key_signatures front)
          (Music.time_signatures front) (Music.beats front)
          (Music.tracks back).
Proof.
  intros Hmusic.
  apply from_music21_score_inv in Hmusic
    as (tracks & beats & Htracks & Hbeats & ->).
  cbn [M21.parts M21.score_stream] in *.
  rewrite score_tracks_app in Htracks.
  destruct (score_tracks pre []) as [t1|e] eqn:Hpre; [|done].
  cbn in Htracks. rewrite score_tracks_acc in Htracks.
  destruct (score_tracks post []) as [t2|e] eqn:Hpost; [|done].
  injection Htracks as <-.
  eexists _, _. split_and!.
  - by apply from_music21_score_Ok.
  - by apply from_music21_score_Ok.
  - done.
  - done.
  - done.
Qed.

Lemma score_tracks_concatenate_witness :
  ∃ front back,
    from_music21_score (sets := insertion_order)
      (M21.mkScore two_measures [sounding_part]) 24 = Ok front
    ∧ from_music21_score (sets := insertion_order)
        (M21.mkScore two_measures [silent_partitioned_part; sounding_part])
        24 = Ok back
    ∧ [Track.mk 0 false None [Note.mk 0 60 24 None] [];
       Track.mk 0 false None [] [];
       Track.mk 0 false None [Note.mk 0 60 24 None] []]
      = Music.tracks front ++ Music.tracks back.
Proof.
  destruct (score_tracks_concatenate insertion_order two_measures
              [sounding_part] [silent_partitioned_part; sounding_part] 24
              _ eq_refl)
    as (front & back & Hfront & Hback & Htracks & _).
  by exists front, back.
Defined.

Lemma parse_time_signatures_elem {sets : PySet} stream resolution ts :
  ts ∈ parse_time_signatures stream resolution
  ↔ ∃ item, item ∈ M21.getTimeSignatures stream
      ∧ ts = TimeSignature.mk (quantize (M21.ts_offset item) resolution)
               (M21.numerator item) (M21.denominator item).
Proof.
  unfold parse_time_signatures.
  rewrite (proj2 (proj2 (sorted_set_spec TimeSignature.time _ sets))).
  rewrite list_elem_of_fmap. split.
  - intros (item & -> & Hin). eauto.
  - intros (item & Hin & ->). eauto.
Qed.

(** There is always a time signature, that of music21 if no other. *)
Lemma parse_time_signatures_nonempty {sets : PySet} stream resolution :
  parse_time_signatures stream resolution ≠ [].
Proof.
  assert (∃ item, item ∈ M21.getTimeSignatures stream) as [item Hitem].
  { unfold M21.getTimeSignatures.
    destruct (M21.timeSignatures stream) as [|item items];
      eexists; by left. }
  intros Hnil.
  assert (TimeSignature.mk (quantize (M21.ts_offset item) resolution)
            (M21.numerator item) (M21.denominator item)
          ∈ parse_time_signatures stream resolution) as Hin
    by (apply parse_time_signatures_elem; eauto).
  rewrite Hnil in Hin. by apply elem_of_nil in Hin.
Qed.

Lemma from_music21_score_Raise {sets : PySet} score resolution e :
  from_music21_score score resolution = Raise e
  ↔ parse_beats (M21.score_stream score)
      (parse_time_signatures (M21.score_stream score) resolution)
      resolution = Raise e.
Proof.
  unfold from_music21_score.
  destruct (score_tracks_returns (M21.parts score) []) as [tracks ->].
  cbv zeta. unfold mbind at 1, result_bind at 1.
  destruct (parse_beats _ _ _); cbn; split; congruence.
Qed.

(** X17.  [from_music21_score] fails exactly where [parse_beats] fails
    on the time signatures of the score, with the same exception, and
    this exception can only be [ZeroDivisionError]: the parts never
    raise, and there is always a time signature. *)
Theorem from_music21_score_errors (sets : PySet) (score : M21.Score)
    (resolution : Z) :
  ((∃ music, from_music21_score score resolution = Ok music)
   ∨ from_music21_score score resolution = Raise ZeroDivisionError)
  ∧ ∀ e,
      from_music21_score score resolution = Raise e
      ↔ parse_beats (M21.score_stream score)
          (parse_time_signatures (M21.score_stream score) resolution)
          resolution = Raise e.
Proof.
  split; [|intros e; apply from_music21_score_Raise].
  destruct (parse_beats_returns_or_divides (M21.score_stream score)
              (parse_time_signatures (M21.score_stream score) resolution)
              resolution) as [[beats Hbeats]|Hraise].
  - apply parse_time_signatures_nonempty.
  - left. destruct (score_tracks_returns (M21.parts score) [])
      as [tracks Htracks].
    eexists. by apply from_music21_score_Ok.
  - right. by apply from_music21_score_Raise.
Qed.

Lemma from_music21_score_returns {sets : PySet} score resolution :
  resolution ≠ 0 →
  Forall (λ item, M21.numerator item ≠ 0 ∧ M21.denominator item ≠ 0)
         (M21.timeSignatures (M21.score_stream score)) →
  ∃ music, from_music21_score score resolution = Ok music.
Proof.
  intros Hr Hsigs.
  destruct (score_tracks_returns (M21.parts score) []) as [tracks Htracks].
  destruct (parse_beats_returns (M21.score_stream score)
              (parse_time_signatures (M21.score_stream score) resolution)
              resolution) as [beats Hbeats]; [done| |  |].
  - apply parse_time_signatures_nonempty.
  - apply Forall_forall. intros ts Hts.
    apply parse_time_signatures_elem in Hts as (item & Hitem & ->). cbn.
    unfold M21.getTimeSignatures in Hitem.
    destruct (M21.timeSignatures (M21.score_stream score)) as [|i0 items].
    + apply list_elem_of_singleton in Hitem as ->. by cbn.
    + rewrite Forall_forall in Hsigs. by apply Hsigs.
  - eexists. by apply from_music21_score_Ok.
Qed.

(** X18.  [from_music21_score] returns a document whenever the
    resolution is not 0 and no time signature of the score has a
    numerator or a denominator of 0. *)
Theorem from_music21_score_total (sets : PySet) (score : M21.Score)
    (resolution : Z) :
  resolution ≠ 0 →
  Forall (λ item, M21.numerator item ≠ 0 ∧ M21.denominator item ≠ 0)
         (M21.timeSignatures (M21.score_stream score)) →
  ∃ music, from_music21_score score resolution = Ok music.
Proof. apply from_music21_score_returns. Qed.

Lemma from_music21_score_total_witness :
  ∃ music,
    from_music21_score (sets := insertion_order) mixed_score 48 = Ok music.
Proof.
  apply from_music21_score_total; [discriminate|].
  repeat constructor; discriminate.
Defined.

(** X19.  The resolution given to [from_music21_score] reaches neither
    the tracks nor the tempos: converted at two resolutions, a score
    gives the same tracks, the same tempos and the same metadata, and
    the document declares the default resolution both times. *)
Theorem from_music21_score_resolution (sets : PySet) (score : M21.Score)
    (resolution resolution' : Z) (music music' : Music) :
  from_music21_score score resolution = Ok music →
  from_music21_score score resolution' = Ok music' →
  Music.tracks music' = Music.tracks music
  ∧ Music.tempos music' = Music.tempos music
  ∧ Music.metadata music' = Music.metadata music
  ∧ Music.resolution music' = DEFAULT_RESOLUTION
  ∧ Music.resolution music = DEFAULT_RESOLUTION.
Proof.
  intros Hmusic Hmusic'.
  apply from_music21_score_inv in Hmusic
    as (tracks & beats & Htracks & _ & ->).
  apply from_music21_score_inv in Hmusic'
    as (tracks' & beats' & Htracks' & _ & ->).
  cbn. split_and!; try done. congruence.
Qed.

Lemma from_music21_score_resolution_witness :
  ∃ music music',
    from_music21_score (sets := insertion_order) mixed_score 24 = Ok music
    ∧ from_music21_score (sets := insertion_order) mixed_score 48
      = Ok music'
    ∧ Music.tracks music' = Music.tracks music
    ∧ Music.tempos music' = Music.tempos music
    ∧ Music.metadata music' = Music.metadata music
    ∧ Music.resolution music' = DEFAULT_RESOLUTION
    ∧ Music.resolution music = DEFAULT_RESOLUTION.
Proof.
  eexists _, _. split; [reflexivity|]. split; [reflexivity|].
  by eapply (from_music21_score_resolution insertion_order mixed_score
               24 48).
Defined.

(** X20.  [from_music21_opus] converts the scores of the opus one by
    one, each at the resolution given: it returns a list exactly when
    every score converts, and the list then holds the documents of the
    scores, one for each, in their order. *)
Theorem from_music21_opus_Ok (sets : PySet) (opus : M21.Opus)
    (resolution : Z) (musics : list Music) :
  from_music21_opus opus resolution = Ok musics
  ↔ Forall2 (λ score music,
               from_music21_score score resolution = Ok music)
      (M21.scores opus) musics.
Proof. apply mapM_Ok. Qed.

(** X21.  [from_music21_opus] raises exactly when a score of the opus
    does, and with the exception of the first score that fails. *)
Theorem from_music21_opus_Raise (sets : PySet) (opus : M21.Opus)
    (resolution : Z) (e : exn) :
  from_music21_opus opus resolution = Raise e
  ↔ ∃ pre score post,
      M21.scores opus = pre ++ score :: post
      ∧ Forall (λ score,
                  ∃ music, from_music21_score score resolution = Ok music)
          pre
      ∧ from_music21_score score resolution = Raise e.
Proof. apply mapM_Raise. Qed.

(** X22.  Whatever it is given, [from_music21] returns or raises
    [ZeroDivisionError]; given a part it returns. *)
Theorem from_music21_errors (sets : PySet) (stream : M21.AnyStream)
    (resolution : Z) :
  ((∃ converted, from_music21 stream resolution = Ok converted)
   ∨ from_music21 stream resolution = Raise ZeroDivisionError)
  ∧ ∀ part,
      stream = M21.APart part →
      ∃ converted, from_music21 stream resolution = Ok converted.
Proof.
  assert (∀ part,
    ∃ tracks, from_music21_part part resolution = Ok tracks) as Hpart.
  { intros part. unfold from_music21_part.
    destruct (negb _).
    - destruct (parse_track_returns (M21.part_stream part) resolution)
        as (ns & cs & _ & ->).
      by eexists.
    - destruct (mapM_parse_track_returns resolution
                  (default [] (M21.partitionByInstrument part)))
        as (tracks & -> & _).
      by eexists. }
  split.
  - destruct stream as [opus|part|score]; cbn.
    + destruct (from_music21_opus opus resolution) as [musics|e] eqn:Hopus;
        cbn; [eauto|right].
      apply mapM_Raise in Hopus as (pre & score & post & _ & _ & Hscore).
      apply from_music21_score_Raise in Hscore.
      destruct (parse_beats_returns_or_divides (M21.score_stream score)
                  (parse_time_signatures (M21.score_stream score)
                     resolution) resolution) as [[beats Hbeats]|Hraise].
      * apply parse_time_signatures_nonempty.
      * congruence.
      * congruence.
    + destruct (Hpart part) as [tracks ->]. cbn. eauto.
    + destruct (parse_beats_returns_or_divides (M21.score_stream score)
                  (parse_time_signatures (M21.score_stream score)
                     resolution) resolution) as [[beats Hbeats]|Hraise].
      * apply parse_time_signatures_nonempty.
      * destruct (score_tracks_returns (M21.parts score) [])
          as [tracks Htracks].
        rewrite (from_music21_score_Ok _ _ _ _ Htracks Hbeats). cbn. eauto.
      * apply from_music21_score_Raise in Hraise. rewrite Hraise. cbn.
        by right.
  - intros part ->. cbn. destruct (Hpart part) as [tracks ->]. cbn. eauto.
Qed.

Lemma from_music21_errors_witness :
  ∃ converted,
    from_music21 (sets := insertion_order) (M21.APart sounding_part) 24
    = Ok converted.
Proof.
  destruct (from_music21_errors insertion_order (M21.APart sounding_part) 24)
    as [_ Hpart].
  by apply (Hpart sounding_part).
Defined.
